(** * Uncollapsed Gibbs sampling for LDA: the [Gibbs] class of
    [4_Gibbs_Sampling_Tutorial.ipynb]

    The development embeds the class [Gibbs] (methods [__init__], [iterate],
    [perplexity], [top_n_words]) and proves the count-matrix invariants, the
    shape of the conditional weights, the visiting order of a sweep and the
    behaviour of the diagnostics.

    Modelling conventions.
    - pandas tables are dense lists addressed by label: row [d] of
      [doc_topic_counts] is document [d], column [k] is topic [k]; the rows of
      [term_topic_count] follow the table's index [tokens].
    - counts are integer valued and are kept in [Z]; they are injected in the
      number type with [of_Z] where the source does arithmetic on them.
    - floating point numbers are an abstract type with the operations the
      source applies, in the order the source applies them ([Float]).
    - NumPy's global generator is an explicit state ([RandomState]).
    - Python exceptions are the [Raise] results of an error monad.
    - [list(set(...))] yields the distinct tokens in an order Python does not
      fix; the model takes the order of [remove_dups], and no result below
      depends on it.
    - [print] is modelled by returning what is printed. *)

From stdpp Require Import base tactics option list sorting strings.
From Stdlib Require Import ZArith Lia.

Local Open Scope Z_scope.
Local Open Scope nat_scope.

(** ** Exceptions *)

Inductive exn : Set :=
  | ValueError
  | ZeroDivisionError
  | KeyError
  | IndexError.

Inductive result (A : Type) : Type :=
  | Ok (a : A)
  | Raise (e : exn).
Arguments Ok {A} a.
Arguments Raise {A} e.

Definition bind {A B : Type} (m : result A) (f : A → result B) : result B :=
  match m with
  | Ok a => f a
  | Raise e => Raise e
  end.

Notation "'let*' x ':=' m 'in' k" := (bind m (λ x, k))
  (at level 10, x name, m at level 100, k at level 200).
Notation "'let*' ' p ':=' m 'in' k" :=
  (bind m (λ x, match x with p => k end))
  (at level 10, p pattern, m at level 100, k at level 200).

(** [for x in xs: body], threading the mutated store [S]. *)
Fixpoint for_each {A S : Type} (body : A → S → result S) (xs : list A) (s : S)
  : result S :=
  match xs with
  | [] => Ok s
  | x :: xs' => let* s' := body x s in for_each body xs' s'
  end.

(** Python's [enumerate]. *)
Fixpoint enumerate_from {A : Type} (n : nat) (l : list A) : list (nat * A) :=
  match l with
  | [] => []
  | x :: l' => (n, x) :: enumerate_from (S n) l'
  end.
Definition enumerate {A : Type} (l : list A) : list (nat * A) :=
  enumerate_from 0 l.

(** Python 2's [range(n)] for an integer [n] (empty when [n <= 0]). *)
Definition range (n : Z) : list nat := seq 0 (Z.to_nat n).

(** ** Numbers and randomness *)

(** The float operations used by the class. *)
Class Float (F : Type) : Type := {
  of_Z : Z → F;
  fadd : F → F → F;
  fmul : F → F → F;
  fdiv : F → F → F;
  fneg : F → F;
  flog : F → F;
  fexp : F → F
}.

(** NumPy's generator.  [randint high size] is
    [np.random.randint(0, high, size=(size,))] for [0 < high];
    [multinomial_hot p] is [np.where(np.random.multinomial(1, p)==1)[0][0]]
    for a non-empty [p]. *)
Class RandomState (F G : Type) : Type := {
  randint : Z → nat → G → list nat * G;
  multinomial_hot : list F → G → nat * G;
  randint_length : ∀ high size g,
    (0 < high)%Z → length (randint high size g).1 = size;
  randint_range : ∀ high size g,
    (0 < high)%Z → Forall (λ k, (Z.of_nat k < high)%Z) (randint high size g).1;
  multinomial_hot_range : ∀ p g,
    p ≠ [] → (multinomial_hot p g).1 < length p
}.

(** ** Labelled tables *)

(** Indicator of a decidable proposition. *)
Definition ind (b : Prop) `{Decision b} : Z := if decide b then 1%Z else 0%Z.


Fixpoint sumZ (l : list Z) : Z :=
  match l with
  | [] => 0%Z
  | x :: l' => (x + sumZ l')%Z
  end.

(** [m.sum(1).ix[r]] *)
Definition row_sum (m : list (list Z)) (r : nat) : Z :=
  sumZ (default [] (m !! r)).

(** entry [c] of [m.sum()] *)
Definition col_sum (m : list (list Z)) (c : nat) : Z :=
  sumZ (fmap (λ row, nth c row 0%Z) m).

(** [m.sum().sum()] *)
Definition mat_sum (m : list (list Z)) : Z := sumZ (fmap sumZ m).

(** [m.ix[r]]: a missing label is a [KeyError]. *)
Definition ix {A : Type} (m : list A) (r : nat) : result A :=
  match m !! r with
  | Some x => Ok x
  | None => Raise KeyError
  end.

(** [m.loc[r, c] += delta] *)
Definition loc_iadd (m : list (list Z)) (r c : nat) (delta : Z)
  : result (list (list Z)) :=
  let* row := ix m r in
  let* x := ix row c in
  Ok (<[r := <[c := (x + delta)%Z]> row]> m).

(** Position of a label in a table index. *)
Fixpoint get_loc (index : list string) (w : string) : result nat :=
  match index with
  | [] => Raise KeyError
  | x :: index' =>
      if decide (x = w) then Ok 0 else let* p := get_loc index' w in Ok (S p)
  end.

(** ** The sampler state *)

Record Gibbs (F : Type) : Type := mkGibbs {
  tokens : list string;
  V : Z;
  K : Z;
  text : list (list string);
  doc_topic : list (list nat);
  doc_topic_counts : list (list Z);
  term_topic_count : list (list Z);
  alpha : F;
  beta : F;
  perplexity_scores : list F
}.
Arguments mkGibbs {F}.
Arguments tokens {F}.
Arguments V {F}.
Arguments K {F}.
Arguments text {F}.
Arguments doc_topic {F}.
Arguments doc_topic_counts {F}.
Arguments term_topic_count {F}.
Arguments alpha {F}.
Arguments beta {F}.
Arguments perplexity_scores {F}.

Section Sampler.
Context {F G : Type} {FO : Float F} {RS : RandomState F G}.

Definition fsum (l : list F) : F := foldl fadd (of_Z 0) l.

(** Python's [a / b] on a float [a] and an int [b]. *)
Definition py_div (a b : Z) : result F :=
  if decide (b = 0%Z) then Raise ZeroDivisionError
  else Ok (fdiv (of_Z a) (of_Z b)).

(** [np.random.randint(0, high, size=(size,))] *)
Definition np_random_randint (high : Z) (size : nat) (g : G)
  : result (list nat * G) :=
  if decide (0 < high)%Z then Ok (randint high size g) else Raise ValueError.

(** [np.zeros((rows, cols))] *)
Definition np_zeros (rows cols : Z) : result (list (list Z)) :=
  if decide (rows < 0 ∨ cols < 0)%Z then Raise ValueError
  else Ok (replicate (Z.to_nat rows) (replicate (Z.to_nat cols) 0%Z)).

(** *** [__init__] *)

(** [text.apply(lambda x: np.random.randint(0,self.K,size=(len(x),)))] *)
Fixpoint draw_doc_topic (K : Z) (text : list (list string)) (g : G)
  : result (list (list nat) * G) :=
  match text with
  | [] => Ok ([], g)
  | doc :: text' =>
      let* '(topics, g1) := np_random_randint K (length doc) g in
      let* '(rest, g2) := draw_doc_topic K text' g1 in
      Ok (topics :: rest, g2)
  end.

(** One row of [doc_topic.apply(lambda x: Counter(x)).apply(pd.Series)]
    after [fillna(0)] and the filling of the missing columns: column [k]
    holds the number of occurrences of [k]. *)
Definition Counter_row (K : Z) (topics : list nat) : list Z :=
  fmap (λ k, Z.of_nat (length (filter (λ x, x = k) topics))) (range K).

(** [self.term_topic_count.loc[word,topic]+=1] and its resampling siblings *)
Definition term_loc_iadd (tokens : list string) (m : list (list Z))
    (word : string) (topic : nat) (delta : Z) : result (list (list Z)) :=
  let* r := get_loc tokens word in
  loc_iadd m r topic delta.

Definition tally_terms (tokens : list string) (text : list (list string))
    (doc_topic : list (list nat)) (m : list (list Z))
  : result (list (list Z)) :=
  for_each (λ doc_ind m,
      let* topics := ix doc_topic doc_ind in
      let* doc := ix text doc_ind in
      for_each (λ '(topic, word) m, term_loc_iadd tokens m word topic 1%Z)
               (zip topics doc) m)
    (range (Z.of_nat (length text))) m.

Definition __init__ (text : list (list string)) (K : Z) (g : G)
  : result (Gibbs F * G) :=
  let tokens := remove_dups (concat text) in
  let V := Z.of_nat (length tokens) in
  let* '(doc_topic, g') := draw_doc_topic K text g in
  let doc_topic_counts := fmap (Counter_row K) doc_topic in
  let* zeros := np_zeros V K in
  let* term_topic_count := tally_terms tokens text doc_topic zeros in
  let* alpha := py_div 50 K in
  let* beta := py_div 200 V in
  Ok (mkGibbs tokens V K text doc_topic doc_topic_counts term_topic_count
              alpha beta [], g').

(** *** [iterate] *)

Definition set_counts (st : Gibbs F) (dtc ttc : list (list Z)) : Gibbs F :=
  mkGibbs (tokens st) (V st) (K st) (text st) (doc_topic st) dtc ttc
          (alpha st) (beta st) (perplexity_scores st).

Definition set_doc_topic (st : Gibbs F) (dt : list (list nat)) : Gibbs F :=
  mkGibbs (tokens st) (V st) (K st) (text st) dt (doc_topic_counts st)
          (term_topic_count st) (alpha st) (beta st) (perplexity_scores st).

Definition set_perplexity_scores (st : Gibbs F) (tr : list F) : Gibbs F :=
  mkGibbs (tokens st) (V st) (K st) (text st) (doc_topic st)
          (doc_topic_counts st) (term_topic_count st) (alpha st) (beta st)
          tr.

(** [topics[word_ind]] on the array [topics = self.doc_topic.ix[doc_ind]] *)
Definition current_topic (st : Gibbs F) (doc_ind word_ind : nat)
  : result nat :=
  let* topics := ix (doc_topic st) doc_ind in
  match topics !! word_ind with
  | Some k => Ok k
  | None => Raise IndexError
  end.

(** "Remove current word from current calculations" *)
Definition remove_word (doc_ind word_ind : nat) (word : string)
    (st : Gibbs F) : result (Gibbs F) :=
  let* k := current_topic st doc_ind word_ind in
  let* dtc := loc_iadd (doc_topic_counts st) doc_ind k (-1)%Z in
  let* ttc := term_loc_iadd (tokens st) (term_topic_count st) word k (-1)%Z in
  Ok (set_counts st dtc ttc).

(** [(self.term_topic_count.ix[word]+self.beta)/
     (self.doc_topic_counts.sum()+self.V*self.beta)] *)
Definition word_given_topic (st : Gibbs F) (word : string)
  : result (list F) :=
  let* r := get_loc (tokens st) word in
  let* row := ix (term_topic_count st) r in
  Ok (zip_with fdiv
        (fmap (λ c, fadd (of_Z c) (beta st)) row)
        (fmap (λ k, fadd (of_Z (col_sum (doc_topic_counts st) k))
                        (fmul (of_Z (V st)) (beta st)))
             (range (K st)))).

(** [(self.doc_topic_counts.ix[doc_ind]+self.alpha)/
     (self.doc_topic_counts.sum(1).ix[doc_ind]+self.K*self.alpha)] *)
Definition topic_given_doc (st : Gibbs F) (doc_ind : nat)
  : result (list F) :=
  let* row := ix (doc_topic_counts st) doc_ind in
  Ok (fmap (λ c, fdiv (fadd (of_Z c) (alpha st))
                     (fadd (of_Z (row_sum (doc_topic_counts st) doc_ind))
                           (fmul (of_Z (K st)) (alpha st))))
          row).

(** [weights = word_given_topic*topic_given_doc] *)
Definition conditional_weights (st : Gibbs F) (doc_ind : nat)
    (word : string) : result (list F) :=
  let* wgt := word_given_topic st word in
  let* tgd := topic_given_doc st doc_ind in
  Ok (zip_with fmul wgt tgd).

(** [weights = weights/weights.sum()] *)
Definition normalize (weights : list F) : list F :=
  fmap (λ w, fdiv w (fsum weights)) weights.

(** [np.where(np.random.multinomial(1,weights)==1)[0][0]] *)
Definition draw_topic (weights : list F) (g : G) : result (nat * G) :=
  match weights with
  | [] => Raise IndexError
  | _ => Ok (multinomial_hot weights g)
  end.

(** [topics[word_ind] = new_topic], then
    "Add back the removed word to appropriate topic".  [topics] is the
    array stored in [self.doc_topic], so the store is updated in place. *)
Definition add_back (doc_ind word_ind : nat) (word : string)
    (new_topic : nat) (st : Gibbs F) : result (Gibbs F) :=
  let* topics := ix (doc_topic st) doc_ind in
  let* _old := current_topic st doc_ind word_ind in
  let st' := set_doc_topic st
               (<[doc_ind := <[word_ind := new_topic]> topics]>
                  (doc_topic st)) in
  let* dtc := loc_iadd (doc_topic_counts st') doc_ind new_topic 1%Z in
  let* ttc := term_loc_iadd (tokens st') (term_topic_count st') word
                new_topic 1%Z in
  Ok (set_counts st' dtc ttc).

(** The body of the innermost loop of [iterate]. *)
Definition resample_one (doc_ind word_ind : nat) (word : string)
    (s : Gibbs F * G) : result (Gibbs F * G) :=
  let* st1 := remove_word doc_ind word_ind word s.1 in
  let* weights := conditional_weights st1 doc_ind word in
  let* '(new_topic, g') := draw_topic (normalize weights) s.2 in
  let* st2 := add_back doc_ind word_ind word new_topic st1 in
  Ok (st2, g').

(** [for word_ind,word in enumerate(doc)] under
    [topics = self.doc_topic.ix[doc_ind]]; the closing
    [self.doc_topic.ix[doc_ind] = topics] stores the array that is already
    there. *)
Definition sweep_doc (d : nat * list string) (s : Gibbs F * G)
  : result (Gibbs F * G) :=
  let* _topics := ix (doc_topic s.1) d.1 in
  for_each (λ '(word_ind, word), resample_one d.1 word_ind word)
           (enumerate d.2) s.

(** [for doc_ind,doc in enumerate(self.text)] *)
Definition sweep (s : Gibbs F * G) : result (Gibbs F * G) :=
  for_each sweep_doc (enumerate (text s.1)) s.

(** *** [perplexity] *)

(** [(self.doc_topic_counts+self.alpha).apply(lambda x: x/x.sum(),1)].
    The closing [fillna(0)] only replaces NaN entries; the numbers of the
    model have none. *)
Definition dt_table (st : Gibbs F) : list (list F) :=
  fmap (λ row, let x := fmap (λ c, fadd (of_Z c) (alpha st)) row in
              fmap (λ v, fdiv v (fsum x)) x)
      (doc_topic_counts st).

(** [(self.term_topic_count+self.beta)/(self.term_topic_count+self.beta).sum()]:
    each row is divided, column by column, by the column sums (on which
    [fillna(0)] acts). *)
Definition tt_table (st : Gibbs F) : list (list F) :=
  let tb :=
    fmap (fmap (λ c, fadd (of_Z c) (beta st))) (term_topic_count st) in
  let sums := fmap (λ k, fsum (omap (λ row, row !! k) tb)) (range (K st)) in
  fmap (λ row, zip_with fdiv row sums) tb.

(** The local function [prob] on the row [(index, word_list)]. *)
Definition prob (st : Gibbs F) (dt tt : list (list F))
    (row : nat * list string) : result F :=
  for_each (λ each doc_perp,
      let* r := get_loc (tokens st) each in
      let* trow := ix tt r in
      let* drow := ix dt row.1 in
      Ok (fadd doc_perp (flog (fsum (zip_with fmul trow drow)))))
    row.2 (of_Z 0).

Fixpoint apply_rows {A B : Type} (f : A → result B) (l : list A)
  : result (list B) :=
  match l with
  | [] => Ok []
  | x :: l' => let* y := f x in let* ys := apply_rows f l' in Ok (y :: ys)
  end.

(** [self.text.apply(len).sum()] *)
Definition total_words (text : list (list string)) : Z :=
  sumZ (fmap (λ doc, Z.of_nat (length doc)) text).

Definition perplexity_value (st : Gibbs F) : result F :=
  let dt := dt_table st in
  let tt := tt_table st in
  let* perplexity := apply_rows (prob st dt tt) (enumerate (text st)) in
  Ok (fexp (fdiv (fneg (fsum perplexity)) (of_Z (total_words (text st))))).

Definition perplexity (st : Gibbs F) : result (Gibbs F) :=
  let* p := perplexity_value st in
  Ok (set_perplexity_scores st (perplexity_scores st ++ [p])).

(** [if step%25==0: print ...; self.perplexity()] *)
Definition report (step : nat) (s : Gibbs F * G) : result (Gibbs F * G) :=
  if decide (step `mod` 25 = 0)
  then let* st := perplexity s.1 in Ok (st, s.2)
  else Ok s.

(** One round of [for step in range(n)]. *)
Definition iterate_step (step : nat) (s : Gibbs F * G)
  : result (Gibbs F * G) :=
  let* s1 := report step s in
  sweep s1.

Definition iterate (n : Z) (s : Gibbs F * G) : result (Gibbs F * G) :=
  for_each iterate_step (range n) s.

(** *** [top_n_words] *)

(** Rows of a table ordered by a key column, largest first.  The order of
    rows with equal keys is the order of the table (pandas leaves it to the
    sorting routine). *)
Fixpoint insert_desc (x : Z * string) (l : list (Z * string))
  : list (Z * string) :=
  match l with
  | [] => [x]
  | y :: l' =>
      if decide (x.1 < y.1)%Z then y :: insert_desc x l' else x :: l
  end.

Definition sort_desc (l : list (Z * string)) : list (Z * string) :=
  foldr insert_desc [] l.

(** [.head(n)] *)
Definition head_n {A : Type} (n : Z) (l : list A) : list A :=
  if decide (0 ≤ n)%Z then take (Z.to_nat n) l
  else take (length l - Z.to_nat (- n)) l.

(** [self.term_topic_count.sort(topic,ascending=False)[topic].head(n)],
    as the labels of [top_n.index]. *)
Definition top_n (st : Gibbs F) (topic : nat) (n : Z)
  : result (list string) :=
  let* col := apply_rows (λ row, ix row topic) (term_topic_count st) in
  Ok ((head_n n (sort_desc (zip col (tokens st)))).*2).

(** The printed blocks, one per topic: the numbers of the heading
    "Top n terms for topic t" and the words under it. *)
Definition top_n_words (n : Z) (st : Gibbs F)
  : result (list (Z * nat * list string) * Gibbs F) :=
  let* out :=
    apply_rows (λ topic, let* ws := top_n st topic n in Ok (n, topic, ws))
               (range (K st)) in
  Ok (out, st).

(** ** Well-formed states and the count invariants *)

Definition table_shape (m : list (list Z)) (rows cols : nat) : Prop :=
  length m = rows ∧ Forall (λ row, length row = cols) m.

(** The topics drawn for a document: one per word, each in [[0, K)]. *)
Definition doc_topic_shape (K : Z) (doc : list string) (topics : list nat)
  : Prop :=
  length topics = length doc ∧ Forall (λ k, (Z.of_nat k < K)%Z) topics.

Record wf (st : Gibbs F) : Prop := mk_wf {
  wf_K : (0 < K st)%Z;
  wf_V : V st = Z.of_nat (length (tokens st));
  wf_tokens_nodup : NoDup (tokens st);
  wf_tokens : ∀ doc w, doc ∈ text st → w ∈ doc → w ∈ tokens st;
  wf_doc_topic :
    Forall2 (doc_topic_shape (K st)) (text st) (doc_topic st);
  wf_doc_topic_counts :
    table_shape (doc_topic_counts st) (length (text st)) (Z.to_nat (K st));
  wf_term_topic_count :
    table_shape (term_topic_count st) (length (tokens st))
                (Z.to_nat (K st))
}.

Definition row_inv (st : Gibbs F) : Prop :=
  ∀ d doc, text st !! d = Some doc →
    row_sum (doc_topic_counts st) d = Z.of_nat (length doc).

Definition col_inv (st : Gibbs F) : Prop :=
  ∀ j, j < Z.to_nat (K st) →
    col_sum (doc_topic_counts st) j = col_sum (term_topic_count st) j.

Definition total_inv (st : Gibbs F) : Prop :=
  mat_sum (doc_topic_counts st) = total_words (text st)
  ∧ mat_sum (term_topic_count st) = total_words (text st).

(** The states of a run between two resamples. *)
Inductive reachable : Gibbs F → Prop :=
  | reach_init text K g st g' :
      __init__ text K g = Ok (st, g') → reachable st
  | reach_resample st g d i w doc st' g' :
      reachable st →
      text st !! d = Some doc → doc !! i = Some w →
      resample_one d i w (st, g) = Ok (st', g') →
      reachable st'
  | reach_perplexity st st' :
      reachable st → perplexity st = Ok st' → reachable st'.

(** ** The formulas of the specification *)

Definition entry (m : list (list Z)) (r c : nat) : Z :=
  nth c (nth r m []) 0%Z.


(** [dt[d,k] = (doc_topic_counts[d,k]+alpha) / sum_k(doc_topic_counts[d,k]+alpha)] *)
Definition dt_spec (st : Gibbs F) (d k : nat) : F :=
  fdiv (fadd (of_Z (entry (doc_topic_counts st) d k)) (alpha st))
       (fsum (fmap (λ k', fadd (of_Z (entry (doc_topic_counts st) d k'))
                              (alpha st))
                  (range (K st)))).

(** [tt[w,k] = (term_topic_count[w,k]+beta) / sum_w(term_topic_count[w,k]+beta)] *)
Definition tt_spec (st : Gibbs F) (w k : nat) : F :=
  fdiv (fadd (of_Z (entry (term_topic_count st) w k)) (beta st))
       (fsum (fmap (λ w', fadd (of_Z (entry (term_topic_count st) w' k))
                              (beta st))
                  (seq 0 (length (tokens st))))).

Definition token_row (st : Gibbs F) (w : string) : nat :=
  match get_loc (tokens st) w with
  | Ok r => r
  | Raise _ => 0
  end.

(** [L]: the log-likelihood summed over documents and their occurrences. *)
Definition log_likelihood_spec (st : Gibbs F) : F :=
  fsum (fmap (λ '(d, doc),
           foldl (λ acc w,
               fadd acc
                 (flog (fsum (fmap (λ k, fmul (tt_spec st (token_row st w) k)
                                             (dt_spec st d k))
                                  (range (K st))))))
             (of_Z 0) doc)
         (enumerate (text st))).

(** [exp(-L/N)] *)
Definition perplexity_spec (st : Gibbs F) : F :=
  fexp (fdiv (fneg (log_likelihood_spec st))
             (of_Z (total_words (text st)))).

(** The visits of one pass: documents in order, positions in order. *)
Definition positions (text : list (list string))
  : list (nat * nat * string) :=
  concat (fmap (λ '(d, doc), fmap (λ '(i, w), (d, i, w)) (enumerate doc))
              (enumerate text)).

(** The count the reporter ranks a word by. *)
Definition topic_count (st : Gibbs F) (topic : nat) (w : string) : Z :=
  entry (term_topic_count st) (token_row st w) topic.

Definition key_ge (x y : Z * string) : Prop := (y.1 ≤ x.1)%Z.

(** The rows of [term_topic_count] as sorted by [top_n]. *)
Definition ranked (st : Gibbs F) (topic : nat) : list (Z * string) :=
  sort_desc (zip ((λ row, nth topic row 0%Z) <$> term_topic_count st)
                 (tokens st)).

Definition visit (p : nat * nat * string) (s : Gibbs F * G)
  : result (Gibbs F * G) :=
  resample_one p.1.1 p.1.2 p.2 s.

Definition position_lt (p q : nat * nat * string) : Prop :=
  p.1.1 < q.1.1 ∨ (p.1.1 = q.1.1 ∧ p.1.2 < q.1.2).

(** One pass written as a single loop over the visits of [txt]. *)
Definition flat_step (txt : list (list string)) (step : nat)
    (s : Gibbs F * G) : result (Gibbs F * G) :=
  let* s1 := report step s in
  for_each visit (positions txt) s1.

(** A whole run: construction from the generator state [g], then [n]
    rounds. *)
Definition run (txt : list (list string)) (k n : Z) (g : G)
  : result (Gibbs F * G) :=
  let* s := __init__ txt k g in
  iterate n s.

(** What a run shows: the topic of every occurrence and the trace. *)
Definition outcome (r : result (Gibbs F * G))
  : option (list (list nat) * list F) :=
  match r with
  | Ok s => Some (doc_topic s.1, perplexity_scores s.1)
  | Raise _ => None
  end.

(** ** Tallies of the assignment store *)

(** Occurrences of document [topics] that carry topic [k]. *)
Definition doc_tally (topics : list nat) (k : nat) : Z :=
  Z.of_nat (length (filter (λ x, x = k) topics)).

(** Occurrences of the word [w] in one document that carry topic [k]. *)
Definition word_tally (w : string) (k : nat)
    (d : list nat * list string) : Z :=
  Z.of_nat (length (filter (λ p, p.1 = k ∧ p.2 = w) (zip d.1 d.2))).

(** Occurrences of the word [w] in the corpus that carry topic [k]. *)
Definition term_tally (txt : list (list string)) (dt : list (list nat))
    (w : string) (k : nat) : Z :=
  sumZ (word_tally w k <$> zip dt txt).

(** Both count tables hold the tallies of [doc_topic]. *)
Definition tally_inv (st : Gibbs F) : Prop :=
  (∀ d topics k, doc_topic st !! d = Some topics → k < Z.to_nat (K st) →
     entry (doc_topic_counts st) d k = doc_tally topics k)
  ∧ (∀ r w k, tokens st !! r = Some w → k < Z.to_nat (K st) →
       entry (term_topic_count st) r k
       = term_tally (text st) (doc_topic st) w k).

(** ** Runs without the reports *)

Definition erase_trace (s : Gibbs F * G) : Gibbs F * G :=
  (set_perplexity_scores s.1 [], s.2).

(** [n] passes and nothing else. *)
Definition plain_sweeps (n : Z) (s : Gibbs F * G) : result (Gibbs F * G) :=
  for_each (λ _, sweep) (range n) s.

(** The order in which [top_n] lists the words of a topic. *)
Definition count_ge (st : Gibbs F) (topic : nat) (w w' : string) : Prop :=
  (topic_count st topic w' ≤ topic_count st topic w)%Z.

End Sampler.

(** ** Two runs, each with a generator of its own *)

(** [R] relates the states of two generators that yield the same draws from
    there on, as two generators seeded alike do: whatever is asked of both,
    the values drawn are equal and the states after the draw are related
    again. *)
Definition same_draws {F G1 G2 : Type} {RS1 : RandomState F G1}
    {RS2 : RandomState F G2} (R : G1 → G2 → Prop) : Prop :=
  (∀ high size g1 g2, (0 < high)%Z → R g1 g2 →
     (randint high size g1).1 = (randint high size g2).1
     ∧ R (randint high size g1).2 (randint high size g2).2)
  ∧ (∀ (p : list F) g1 g2, p ≠ [] → R g1 g2 →
       (multinomial_hot p g1).1 = (multinomial_hot p g2).1
       ∧ R (multinomial_hot p g1).2 (multinomial_hot p g2).2).

(** The two runs raise the same exception, or return the same sampler
    state with the generators related by [R]. *)
Definition same_result {F G1 G2 : Type} (R : G1 → G2 → Prop)
    (r1 : result (Gibbs F * G1)) (r2 : result (Gibbs F * G2)) : Prop :=
  match r1, r2 with
  | Ok s1, Ok s2 => s1.1 = s2.1 ∧ R s1.2 s2.2
  | Raise e1, Raise e2 => e1 = e2
  | _, _ => False
  end.

(** ** A concrete model of the interfaces *)

(** Float expressions: each value is the term that computes it. *)
Inductive fexpr : Set :=
  | FConst (z : Z)
  | FAdd (a b : fexpr)
  | FMul (a b : fexpr)
  | FDiv (a b : fexpr)
  | FNeg (a : fexpr)
  | FLog (a : fexpr)
  | FExp (a : fexpr).

#[export] Instance fexpr_float : Float fexpr :=
  {| of_Z := FConst; fadd := FAdd; fmul := FMul; fdiv := FDiv;
     fneg := FNeg; flog := FLog; fexp := FExp |}.

(** A generator that replays a tape of draws (zeros when the tape is
    exhausted). *)
Definition tape_randint (high : Z) (size : nat) (g : list nat)
  : list nat * list nat :=
  (fmap (λ x, x `mod` Z.to_nat high) (take size (g ++ replicate size 0)),
   drop size g).

Definition tape_multinomial_hot (p : list fexpr) (g : list nat)
  : nat * list nat :=
  match g with
  | [] => (0, [])
  | x :: g' => (x `mod` length p, g')
  end.

(** ** The tape generator is a generator *)

Lemma tape_randint_length (high : Z) (size : nat) (g : list nat) :
  (0 < high)%Z → length (tape_randint high size g).1 = size.
Proof.
  intros _. unfold tape_randint. simpl.
  rewrite length_fmap, length_take, length_app, length_replicate. lia.
Qed.

Lemma tape_randint_range (high : Z) (size : nat) (g : list nat) :
  (0 < high)%Z →
  Forall (λ k, (Z.of_nat k < high)%Z) (tape_randint high size g).1.
Proof.
  intros Hh. unfold tape_randint. simpl.
  apply Forall_fmap, Forall_forall. intros x _. simpl.
  pose proof (Nat.mod_upper_bound x (Z.to_nat high)). lia.
Qed.

Lemma tape_multinomial_hot_range (p : list fexpr) (g : list nat) :
  p ≠ [] → (tape_multinomial_hot p g).1 < length p.
Proof.
  intros Hp. assert (0 < length p) by (destruct p; [done|simpl; lia]).
  unfold tape_multinomial_hot. destruct g as [|x g]; simpl; [done|].
  apply Nat.mod_upper_bound. lia.
Qed.

#[export] Instance tape_random : RandomState fexpr (list nat) :=
  {| randint := tape_randint;
     multinomial_hot := tape_multinomial_hot;
     randint_length := tape_randint_length;
     randint_range := tape_randint_range;
     multinomial_hot_range := tape_multinomial_hot_range |}.

(** A second generator: the tape together with the number of values it has
    handed out. *)
Definition counted_randint (high : Z) (size : nat) (g : list nat * nat)
  : list nat * (list nat * nat) :=
  ((tape_randint high size g.1).1,
   ((tape_randint high size g.1).2, g.2 + size)).

Definition counted_multinomial_hot (p : list fexpr) (g : list nat * nat)
  : nat * (list nat * nat) :=
  ((tape_multinomial_hot p g.1).1, ((tape_multinomial_hot p g.1).2, S g.2)).

#[export] Instance counted_random : RandomState fexpr (list nat * nat) :=
  {| randint := counted_randint;
     multinomial_hot := counted_multinomial_hot;
     randint_length := λ high size g, tape_randint_length high size g.1;
     randint_range := λ high size g, tape_randint_range high size g.1;
     multinomial_hot_range := λ p g, tape_multinomial_hot_range p g.1 |}.

(** A two-document corpus, a tape of draws, and the state that [__init__]
    builds from them for two topics. *)
Definition corpus_A : list (list string) := [["a"; "b"]; ["b"; "c"]].

Definition tape_A : list nat := [0; 1; 1; 1; 1; 0; 0; 0].

Definition state_A : Gibbs fexpr :=
  {| tokens := ["a"; "b"; "c"];
     V := 3;
     K := 2;
     text := corpus_A;
     doc_topic := [[0; 1]; [1; 1]];
     doc_topic_counts := [[1; 1]; [0; 2]]%Z;
     term_topic_count := [[1; 0]; [0; 2]; [0; 1]]%Z;
     alpha := FDiv (FConst 50) (FConst 2);
     beta := FDiv (FConst 200) (FConst 3);
     perplexity_scores := [] |}.

(** ** Basic facts: the error monad and loops *)

Lemma bind_Ok_inv {A B : Type} (m : result A) (f : A → result B) (b : B) :
  bind m f = Ok b → ∃ a, m = Ok a ∧ f a = Ok b.
Proof. destruct m as [a|e]; simpl; [eauto | discriminate]. Qed.

Lemma ix_Ok_inv {A : Type} (m : list A) (r : nat) (x : A) :
  ix m r = Ok x → m !! r = Some x.
Proof. unfold ix. destruct (m !! r); congruence. Qed.

Lemma ix_lookup {A : Type} (m : list A) (r : nat) (x : A) :
  m !! r = Some x → ix m r = Ok x.
Proof. unfold ix. intros ->. reflexivity. Qed.

(** Splits the successful run of a sequence of binds into its steps. *)
Ltac inv_ok :=
  repeat match goal with
    | H : bind _ _ = Ok _ |- _ =>
        apply bind_Ok_inv in H; destruct H as (? & ? & H)
    | H : Ok _ = Ok _ |- _ => injection H as H
    | H : ix _ _ = Ok _ |- _ => apply ix_Ok_inv in H
    | H : Raise _ = Ok _ |- _ => discriminate H
    end.

Lemma for_each_app {A S : Type} (body : A → S → result S) (xs ys : list A)
    (s : S) :
  for_each body (xs ++ ys) s = bind (for_each body xs s) (for_each body ys).
Proof.
  revert s. induction xs as [|x xs IH]; intros s; simpl; [reflexivity|].
  destruct (body x s) as [s'|e]; simpl; [apply IH | reflexivity].
Qed.

Lemma for_each_ext_in {A S : Type} (f g : A → S → result S) (xs : list A)
    (s : S) :
  (∀ x s', x ∈ xs → f x s' = g x s') → for_each f xs s = for_each g xs s.
Proof.
  revert s. induction xs as [|x xs IH]; intros s Hfg; simpl; [reflexivity|].
  rewrite Hfg by left. destruct (g x s) as [s'|e]; simpl; [|reflexivity].
  apply IH. intros y s'' Hy. apply Hfg. by right.
Qed.

(** A loop whose body keeps an invariant, and succeeds under it, succeeds
    and keeps it. *)
Lemma for_each_invariant {A S : Type} (P : S → Prop) (Q : A → Prop)
    (body : A → S → result S) (xs : list A) (s : S) :
  Forall Q xs →
  (∀ x s, Q x → P s → ∃ s', body x s = Ok s' ∧ P s') →
  P s → ∃ s', for_each body xs s = Ok s' ∧ P s'.
Proof.
  intros HQ Hbody. revert s.
  induction HQ as [|x xs Hx _ IH]; intros s Hs; simpl; [eauto|].
  destruct (Hbody x s Hx Hs) as (s1 & -> & Hs1). simpl. by apply IH.
Qed.

(** The same, for a run known to succeed. *)
Lemma for_each_preserves {A S : Type} (P : S → Prop)
    (body : A → S → result S) (xs : list A) (s s' : S) :
  (∀ x s s', x ∈ xs → P s → body x s = Ok s' → P s') →
  P s → for_each body xs s = Ok s' → P s'.
Proof.
  revert s. induction xs as [|x xs IH]; intros s Hbody Hs Hrun; simpl in Hrun.
  - by injection Hrun as <-.
  - inv_ok. eapply IH; [| |exact Hrun].
    + intros y t t' Hy. apply Hbody. by right.
    + eapply Hbody; [by left|exact Hs|eassumption].
Qed.

(** ** Sums of tables *)

Lemma sumZ_app (l1 l2 : list Z) : sumZ (l1 ++ l2) = (sumZ l1 + sumZ l2)%Z.
Proof. induction l1 as [|x l1 IH]; simpl; lia. Qed.

Lemma sumZ_insert (l : list Z) (i : nat) (x y : Z) :
  l !! i = Some y → sumZ (<[i := x]> l) = (sumZ l - y + x)%Z.
Proof.
  revert i. induction l as [|z l IH]; intros [|i] Hi; simpl in *; try done.
  - injection Hi as ->. lia.
  - rewrite (IH i Hi). lia.
Qed.

Lemma sumZ_replicate_0 (n : nat) : sumZ (replicate n 0%Z) = 0%Z.
Proof. induction n as [|n IH]; simpl; lia. Qed.

Lemma sumZ_map_add {A : Type} (f g : A → Z) (l : list A) :
  sumZ (fmap (λ x, (f x + g x)%Z) l) = (sumZ (fmap f l) + sumZ (fmap g l))%Z.
Proof. induction l as [|x l IH]; csimpl; lia. Qed.

Lemma nth_insert_Z (row : list Z) (c c' : nat) (y : Z) :
  c < length row →
  nth c' (<[c := y]> row) 0%Z = if decide (c' = c) then y else nth c' row 0%Z.
Proof.
  intros Hc. rewrite !nth_lookup. destruct (decide (c' = c)) as [->|Hne].
  - by rewrite list_lookup_insert_eq.
  - by rewrite list_lookup_insert_ne.
Qed.

Lemma loc_iadd_inv (m m' : list (list Z)) (r c : nat) (delta : Z) :
  loc_iadd m r c delta = Ok m' →
  ∃ row x, m !! r = Some row ∧ row !! c = Some x
           ∧ m' = <[r := <[c := (x + delta)%Z]> row]> m.
Proof. unfold loc_iadd. intros H. inv_ok. subst. eauto. Qed.

Lemma loc_iadd_ok (m : list (list Z)) (rows cols r c : nat) (delta : Z) :
  table_shape m rows cols → r < rows → c < cols →
  ∃ m', loc_iadd m r c delta = Ok m'.
Proof.
  intros [Hlen Hrows] Hr Hc. unfold loc_iadd.
  destruct (lookup_lt_is_Some_2 m r) as [row Hrow]; [lia|].
  rewrite (ix_lookup _ _ _ Hrow). simpl.
  assert (length row = cols) as Hrl.
  { rewrite Forall_forall in Hrows. apply Hrows.
    by eapply list_elem_of_lookup_2. }
  destruct (lookup_lt_is_Some_2 row c) as [x Hx]; [lia|].
  rewrite (ix_lookup _ _ _ Hx). simpl. eauto.
Qed.

Lemma loc_iadd_shape (m m' : list (list Z)) (rows cols r c : nat) (delta : Z) :
  table_shape m rows cols → loc_iadd m r c delta = Ok m' →
  table_shape m' rows cols.
Proof.
  intros [Hlen Hrows] H. apply loc_iadd_inv in H as (row & x & Hr & Hc & ->).
  split; [by rewrite length_insert|].
  apply Forall_insert; [done|]. rewrite length_insert.
  rewrite Forall_forall in Hrows. apply Hrows. by eapply list_elem_of_lookup_2.
Qed.

Lemma loc_iadd_row_sum (m m' : list (list Z)) (r c r' : nat) (delta : Z) :
  loc_iadd m r c delta = Ok m' →
  row_sum m' r' = (row_sum m r' + if decide (r' = r) then delta else 0)%Z.
Proof.
  intros H. apply loc_iadd_inv in H as (row & x & Hr & Hc & ->).
  unfold row_sum. destruct (decide (r' = r)) as [->|Hne].
  - rewrite list_lookup_insert_eq by by eapply lookup_lt_Some.
    rewrite Hr. simpl. rewrite (sumZ_insert _ _ _ _ Hc). lia.
  - rewrite list_lookup_insert_ne by done. lia.
Qed.

Lemma loc_iadd_col_sum (m m' : list (list Z)) (r c c' : nat) (delta : Z) :
  loc_iadd m r c delta = Ok m' →
  col_sum m' c' = (col_sum m c' + if decide (c' = c) then delta else 0)%Z.
Proof.
  intros H. apply loc_iadd_inv in H as (row & x & Hr & Hc & ->).
  unfold col_sum. rewrite list_fmap_insert.
  erewrite sumZ_insert by (rewrite list_lookup_fmap, Hr; reflexivity).
  rewrite nth_insert_Z by by eapply lookup_lt_Some.
  destruct (decide (c' = c)) as [->|Hne]; [|lia].
  rewrite (nth_lookup row c), Hc. simpl. lia.
Qed.

Lemma loc_iadd_mat_sum (m m' : list (list Z)) (r c : nat) (delta : Z) :
  loc_iadd m r c delta = Ok m' → mat_sum m' = (mat_sum m + delta)%Z.
Proof.
  intros H. apply loc_iadd_inv in H as (row & x & Hr & Hc & ->).
  unfold mat_sum. rewrite list_fmap_insert.
  erewrite sumZ_insert by (rewrite list_lookup_fmap, Hr; reflexivity).
  rewrite (sumZ_insert _ _ _ _ Hc). lia.
Qed.

Lemma loc_iadd_entry (m m' : list (list Z)) (r c r' c' : nat) (delta : Z) :
  loc_iadd m r c delta = Ok m' →
  entry m' r' c'
  = (entry m r' c' + if decide (r' = r ∧ c' = c) then delta else 0)%Z.
Proof.
  intros H. apply loc_iadd_inv in H as (row & x & Hr & Hc & ->).
  unfold entry. rewrite !(nth_lookup _ r').
  destruct (decide (r' = r)) as [->|Hne].
  - rewrite list_lookup_insert_eq by by eapply lookup_lt_Some.
    rewrite Hr. simpl. rewrite nth_insert_Z by by eapply lookup_lt_Some.
    destruct (decide (c' = c)) as [->|Hc'].
    + rewrite decide_True by done. rewrite nth_lookup, Hc. reflexivity.
    + rewrite decide_False by tauto. lia.
  - rewrite list_lookup_insert_ne by done.
    rewrite decide_False by tauto. lia.
Qed.

(** ** Labels *)

Lemma get_loc_lookup (index : list string) (w : string) (p : nat) :
  get_loc index w = Ok p → index !! p = Some w.
Proof.
  revert p. induction index as [|x index IH]; intros p H; simpl in H.
  - discriminate.
  - destruct (decide (x = w)) as [->|Hne].
    + injection H as <-. reflexivity.
    + inv_ok. subst. simpl. by apply IH.
Qed.

Lemma get_loc_elem_of (index : list string) (w : string) :
  w ∈ index → ∃ p, get_loc index w = Ok p.
Proof.
  induction index as [|x index IH]; intros Hw; simpl.
  - by apply elem_of_nil in Hw.
  - destruct (decide (x = w)) as [->|Hne]; [eauto|].
    apply elem_of_cons in Hw as [->|Hw]; [done|].
    destruct (IH Hw) as [p ->]. simpl. eauto.
Qed.

Lemma get_loc_lt (index : list string) (w : string) (p : nat) :
  get_loc index w = Ok p → p < length index.
Proof. intros H. apply get_loc_lookup in H. by eapply lookup_lt_Some. Qed.

(** ** The two halves of a resample *)

Section Halves.
Context {F G : Type} {FO : Float F} {RS : RandomState F G}.
Implicit Types st : Gibbs F.

Lemma remove_word_inv d i w st st1 :
  remove_word d i w st = Ok st1 →
  ∃ topics k r dtc ttc,
    doc_topic st !! d = Some topics ∧ topics !! i = Some k
    ∧ get_loc (tokens st) w = Ok r
    ∧ loc_iadd (doc_topic_counts st) d k (-1) = Ok dtc
    ∧ loc_iadd (term_topic_count st) r k (-1) = Ok ttc
    ∧ st1 = set_counts st dtc ttc.
Proof.
  unfold remove_word, current_topic, term_loc_iadd. intros H. inv_ok.
  destruct (_ !! i) as [k|] eqn:Hk; [|discriminate].
  inv_ok. subst. eauto 12.
Qed.

Lemma add_back_inv d i w k st st2 :
  add_back d i w k st = Ok st2 →
  ∃ topics k0 r dtc ttc,
    doc_topic st !! d = Some topics ∧ topics !! i = Some k0
    ∧ get_loc (tokens st) w = Ok r
    ∧ loc_iadd (doc_topic_counts st) d k 1 = Ok dtc
    ∧ loc_iadd (term_topic_count st) r k 1 = Ok ttc
    ∧ st2 = set_counts
              (set_doc_topic st
                 (<[d := <[i := k]> topics]> (doc_topic st)))
              dtc ttc.
Proof.
  unfold add_back, current_topic, term_loc_iadd. intros H. inv_ok.
  simpl in *.
  match goal with H : ?a = Some ?t, H' : ?a = Some ?t' |- _ =>
    rewrite H in H'; injection H' as <- end.
  destruct (_ !! i) as [k0|] eqn:Hk; [|discriminate].
  inv_ok. subst. eauto 12.
Qed.

Lemma wf_position st d i doc w :
  wf st → text st !! d = Some doc → doc !! i = Some w →
  ∃ topics k r,
    doc_topic st !! d = Some topics ∧ topics !! i = Some k
    ∧ get_loc (tokens st) w = Ok r
    ∧ d < length (text st) ∧ k < Z.to_nat (K st)
    ∧ r < length (tokens st).
Proof.
  intros Hwf Hd Hi.
  destruct (Forall2_lookup_l _ _ _ _ _ (wf_doc_topic _ Hwf) Hd)
    as (topics & Ht & Hlen & Hrange).
  destruct (lookup_lt_is_Some_2 topics i) as [k Hk].
  { rewrite Hlen. by eapply lookup_lt_Some. }
  destruct (get_loc_elem_of (tokens st) w) as [r Hr].
  { eapply wf_tokens; eauto using list_elem_of_lookup_2. }
  exists topics, k, r. repeat split; try done.
  - by eapply lookup_lt_Some.
  - pose proof (Forall_lookup_1 _ _ _ _ Hrange Hk) as Hlt. simpl in Hlt. lia.
  - by eapply get_loc_lt.
Qed.

Lemma remove_word_ok st d i doc w :
  wf st → text st !! d = Some doc → doc !! i = Some w →
  ∃ st1, remove_word d i w st = Ok st1.
Proof.
  intros Hwf Hd Hi.
  destruct (wf_position _ _ _ _ _ Hwf Hd Hi)
    as (topics & k & r & Ht & Hk & Hr & Hdl & Hkl & Hrl).
  unfold remove_word, current_topic, term_loc_iadd.
  rewrite (ix_lookup _ _ _ Ht). simpl. rewrite Hk. simpl.
  destruct (loc_iadd_ok _ _ _ d k (-1) (wf_doc_topic_counts _ Hwf) Hdl Hkl)
    as [dtc ->]. simpl. rewrite Hr. simpl.
  destruct (loc_iadd_ok _ _ _ r k (-1) (wf_term_topic_count _ Hwf) Hrl Hkl)
    as [ttc ->]. simpl. eauto.
Qed.

Lemma wf_set_counts st dtc ttc :
  wf st →
  table_shape dtc (length (text st)) (Z.to_nat (K st)) →
  table_shape ttc (length (tokens st)) (Z.to_nat (K st)) →
  wf (set_counts st dtc ttc).
Proof. intros [] ??. by constructor. Qed.

Lemma wf_remove_word st st1 d i w :
  wf st → remove_word d i w st = Ok st1 → wf st1.
Proof.
  intros Hwf H.
  apply remove_word_inv in H
    as (topics & k & r & dtc & ttc & _ & _ & _ & Hd & Ht & ->).
  apply wf_set_counts; [done|..]; eapply loc_iadd_shape; try eassumption.
  - apply (wf_doc_topic_counts _ Hwf).
  - apply (wf_term_topic_count _ Hwf).
Qed.

Lemma wf_add_back st st2 d i w k :
  wf st → (Z.of_nat k < K st)%Z → add_back d i w k st = Ok st2 → wf st2.
Proof.
  intros Hwf Hk H.
  apply add_back_inv in H
    as (topics & k0 & r & dtc & ttc & Ht & Hk0 & _ & Hd & Hr & ->).
  assert (wf (set_doc_topic st (<[d := <[i := k]> topics]> (doc_topic st))))
    as Hwf'.
  { destruct Hwf as [? ? ? ? Hdt ? ?]. constructor; try done. simpl.
    destruct (Forall2_lookup_r _ _ _ _ _ Hdt Ht) as (doc & Hdoc & Hlen & Hr').
    rewrite <- (list_insert_id (text st) d doc Hdoc).
    apply Forall2_insert; [done|]. split.
    - by rewrite length_insert.
    - by apply Forall_insert. }
  apply wf_set_counts; [done|..]; eapply loc_iadd_shape; try eassumption.
  - apply (wf_doc_topic_counts _ Hwf).
  - apply (wf_term_topic_count _ Hwf).
Qed.

Lemma add_back_ok st d i doc w k :
  wf st → text st !! d = Some doc → doc !! i = Some w →
  k < Z.to_nat (K st) →
  ∃ st2, add_back d i w k st = Ok st2.
Proof.
  intros Hwf Hd Hi Hk.
  destruct (wf_position _ _ _ _ _ Hwf Hd Hi)
    as (topics & k0 & r & Ht & Hk0 & Hr & Hdl & _ & Hrl).
  unfold add_back, current_topic, term_loc_iadd.
  rewrite (ix_lookup _ _ _ Ht). simpl. rewrite Hk0. simpl.
  destruct (loc_iadd_ok _ _ _ d k 1 (wf_doc_topic_counts _ Hwf) Hdl Hk)
    as [dtc ->]. simpl. rewrite Hr. simpl.
  destruct (loc_iadd_ok _ _ _ r k 1 (wf_term_topic_count _ Hwf) Hrl Hk)
    as [ttc ->]. simpl. eauto.
Qed.

End Halves.

Section Resample.
Context {F G : Type} {FO : Float F} {RS : RandomState F G}.
Implicit Types st : Gibbs F.
Implicit Types s : Gibbs F * G.

Lemma remove_word_sums d i w st st1 :
  remove_word d i w st = Ok st1 →
  ∃ topics k,
    doc_topic st !! d = Some topics ∧ topics !! i = Some k
    ∧ (∀ d', row_sum (doc_topic_counts st1) d'
             = (row_sum (doc_topic_counts st) d' - ind (d' = d))%Z)
    ∧ (∀ j, col_sum (doc_topic_counts st1) j
            = (col_sum (doc_topic_counts st) j - ind (j = k))%Z)
    ∧ (∀ j, col_sum (term_topic_count st1) j
            = (col_sum (term_topic_count st) j - ind (j = k))%Z)
    ∧ mat_sum (doc_topic_counts st1)
      = (mat_sum (doc_topic_counts st) - 1)%Z
    ∧ mat_sum (term_topic_count st1)
      = (mat_sum (term_topic_count st) - 1)%Z.
Proof.
  intros H. apply remove_word_inv in H
    as (topics & k & r & dtc & ttc & Ht & Hk & _ & Hd & Hr & ->).
  exists topics, k. simpl. repeat split; try done; intros; unfold ind.
  - rewrite (loc_iadd_row_sum _ _ _ _ _ _ Hd). case_decide; lia.
  - rewrite (loc_iadd_col_sum _ _ _ _ _ _ Hd). case_decide; lia.
  - rewrite (loc_iadd_col_sum _ _ _ _ _ _ Hr). case_decide; lia.
  - rewrite (loc_iadd_mat_sum _ _ _ _ _ Hd). lia.
  - rewrite (loc_iadd_mat_sum _ _ _ _ _ Hr). lia.
Qed.

Lemma add_back_sums d i w k st st2 :
  add_back d i w k st = Ok st2 →
  (∀ d', row_sum (doc_topic_counts st2) d'
         = (row_sum (doc_topic_counts st) d' + ind (d' = d))%Z)
  ∧ (∀ j, col_sum (doc_topic_counts st2) j
          = (col_sum (doc_topic_counts st) j + ind (j = k))%Z)
  ∧ (∀ j, col_sum (term_topic_count st2) j
          = (col_sum (term_topic_count st) j + ind (j = k))%Z)
  ∧ mat_sum (doc_topic_counts st2) = (mat_sum (doc_topic_counts st) + 1)%Z
  ∧ mat_sum (term_topic_count st2) = (mat_sum (term_topic_count st) + 1)%Z.
Proof.
  intros H. apply add_back_inv in H
    as (topics & k0 & r & dtc & ttc & Ht & Hk & _ & Hd & Hr & ->).
  simpl. repeat split; intros; unfold ind.
  - rewrite (loc_iadd_row_sum _ _ _ _ _ _ Hd). case_decide; lia.
  - rewrite (loc_iadd_col_sum _ _ _ _ _ _ Hd). case_decide; lia.
  - rewrite (loc_iadd_col_sum _ _ _ _ _ _ Hr). case_decide; lia.
  - rewrite (loc_iadd_mat_sum _ _ _ _ _ Hd). lia.
  - rewrite (loc_iadd_mat_sum _ _ _ _ _ Hr). lia.
Qed.

(** Neither half touches the corpus, the priors or the trace. *)
Lemma remove_word_frame d i w st st1 :
  remove_word d i w st = Ok st1 →
  tokens st1 = tokens st ∧ V st1 = V st ∧ K st1 = K st
  ∧ text st1 = text st ∧ doc_topic st1 = doc_topic st
  ∧ alpha st1 = alpha st ∧ beta st1 = beta st
  ∧ perplexity_scores st1 = perplexity_scores st.
Proof.
  intros H. apply remove_word_inv in H as (?&?&?&?&?&_&_&_&_&_&->).
  by repeat split.
Qed.

Lemma add_back_frame d i w k st st2 :
  add_back d i w k st = Ok st2 →
  tokens st2 = tokens st ∧ V st2 = V st ∧ K st2 = K st
  ∧ text st2 = text st
  ∧ alpha st2 = alpha st ∧ beta st2 = beta st
  ∧ perplexity_scores st2 = perplexity_scores st.
Proof.
  intros H. apply add_back_inv in H as (?&?&?&?&?&_&_&_&_&_&->).
  by repeat split.
Qed.

(** *** The conditional weights *)

Lemma conditional_weights_lookup st d w r :
  wf st → d < length (text st) → get_loc (tokens st) w = Ok r →
  ∃ ws, conditional_weights st d w = Ok ws
    ∧ length ws = Z.to_nat (K st)
    ∧ ∀ j, j < Z.to_nat (K st) →
        ws !! j = Some
          (fmul
             (fdiv (fadd (of_Z (entry (term_topic_count st) r j)) (beta st))
                   (fadd (of_Z (col_sum (doc_topic_counts st) j))
                         (fmul (of_Z (V st)) (beta st))))
             (fdiv (fadd (of_Z (entry (doc_topic_counts st) d j)) (alpha st))
                   (fadd (of_Z (row_sum (doc_topic_counts st) d))
                         (fmul (of_Z (K st)) (alpha st))))).
Proof.
  intros Hwf Hd Hr.
  destruct (wf_doc_topic_counts _ Hwf) as [Hdl Hdrows].
  destruct (wf_term_topic_count _ Hwf) as [Htl Htrows].
  destruct (lookup_lt_is_Some_2 (doc_topic_counts st) d) as [drow Hdrow];
    [lia|].
  destruct (lookup_lt_is_Some_2 (term_topic_count st) r) as [trow Htrow].
  { rewrite Htl. by eapply get_loc_lt. }
  pose proof (Forall_lookup_1 _ _ _ _ Hdrows Hdrow) as Hdlen.
  pose proof (Forall_lookup_1 _ _ _ _ Htrows Htrow) as Htlen.
  simpl in Hdlen, Htlen.
  unfold conditional_weights, word_given_topic, topic_given_doc.
  rewrite Hr. simpl. rewrite (ix_lookup _ _ _ Htrow). simpl.
  rewrite (ix_lookup _ _ _ Hdrow). simpl.
  eexists. split; [reflexivity|]. split.
  - rewrite !length_zip_with, !length_fmap. unfold range.
    rewrite length_seq. lia.
  - intros j Hj.
    destruct (lookup_lt_is_Some_2 drow j) as [x Hx]; [lia|].
    destruct (lookup_lt_is_Some_2 trow j) as [y Hy]; [lia|].
    rewrite !lookup_zip_with, !list_lookup_fmap. unfold range.
    rewrite lookup_seq_lt by done. rewrite Hx, Hy. simpl.
    unfold entry. rewrite !(nth_lookup _ d), !(nth_lookup _ r).
    rewrite Hdrow, Htrow. simpl. rewrite !nth_lookup, Hx, Hy.
    reflexivity.
Qed.

Lemma conditional_weights_length st d w ws :
  wf st → conditional_weights st d w = Ok ws →
  length ws = Z.to_nat (K st).
Proof.
  intros Hwf H.
  assert (∃ r, get_loc (tokens st) w = Ok r ∧ d < length (text st))
    as (r & Hr & Hd).
  { unfold conditional_weights, word_given_topic, topic_given_doc in H.
    inv_ok. eexists. split; [eassumption|].
    rewrite <- (proj1 (wf_doc_topic_counts _ Hwf)).
    by eapply lookup_lt_Some. }
  destruct (conditional_weights_lookup _ _ _ _ Hwf Hd Hr)
    as (ws' & Hws' & Hlen & _).
  congruence.
Qed.

(** *** A whole resample *)

Lemma resample_one_inv d i w s s' :
  resample_one d i w s = Ok s' →
  ∃ st1 ws,
    remove_word d i w s.1 = Ok st1
    ∧ conditional_weights st1 d w = Ok ws
    ∧ ws ≠ []
    ∧ (multinomial_hot (normalize ws) s.2).2 = s'.2
    ∧ add_back d i w (multinomial_hot (normalize ws) s.2).1 st1 = Ok s'.1.
Proof.
  unfold resample_one. intros H.
  apply bind_Ok_inv in H as (st1 & Hrm & H).
  apply bind_Ok_inv in H as (ws & Hws & H).
  apply bind_Ok_inv in H as ([k g'] & Hdraw & H).
  apply bind_Ok_inv in H as (st2 & Hadd & H).
  injection H as <-. unfold draw_topic in Hdraw.
  destruct (normalize ws) as [|x l] eqn:Hn; [discriminate|].
  injection Hdraw as Hdraw. rewrite <- Hn in Hdraw.
  exists st1, ws. rewrite Hdraw. simpl. repeat split; try done.
  intros ->. discriminate Hn.
Qed.

Lemma normalize_length (ws : list F) : length (normalize ws) = length ws.
Proof. unfold normalize. by rewrite length_fmap. Qed.

Lemma draw_topic_cons (ws : list F) (g : G) :
  ws ≠ [] → draw_topic ws g = Ok (multinomial_hot ws g).
Proof. by destruct ws. Qed.

Lemma resample_one_draw_lt d w s st1 ws :
  wf st1 → conditional_weights st1 d w = Ok ws → ws ≠ [] →
  (multinomial_hot (normalize ws) s.2).1 < Z.to_nat (K st1).
Proof.
  intros Hwf Hws Hne.
  rewrite <- (conditional_weights_length _ _ _ _ Hwf Hws).
  rewrite <- normalize_length. apply multinomial_hot_range.
  unfold normalize. destruct ws; [done|discriminate].
Qed.

Lemma wf_resample_one d i w s s' :
  wf s.1 → resample_one d i w s = Ok s' → wf s'.1.
Proof.
  intros Hwf H.
  apply resample_one_inv in H as (st1 & ws & Hrm & Hws & Hne & _ & Hadd).
  pose proof (wf_remove_word _ _ _ _ _ Hwf Hrm) as Hwf1.
  eapply wf_add_back; [exact Hwf1| |exact Hadd].
  pose proof (resample_one_draw_lt d w s _ _ Hwf1 Hws Hne).
  pose proof (wf_K _ Hwf1). lia.
Qed.

Lemma resample_one_frame d i w s s' :
  resample_one d i w s = Ok s' →
  tokens s'.1 = tokens s.1 ∧ V s'.1 = V s.1 ∧ K s'.1 = K s.1
  ∧ text s'.1 = text s.1
  ∧ alpha s'.1 = alpha s.1 ∧ beta s'.1 = beta s.1
  ∧ perplexity_scores s'.1 = perplexity_scores s.1.
Proof.
  intros H.
  apply resample_one_inv in H as (st1 & ws & Hrm & _ & _ & _ & Hadd).
  apply remove_word_frame in Hrm as (?&?&?&?&?&?&?&?).
  apply add_back_frame in Hadd as (?&?&?&?&?&?&?).
  repeat split; congruence.
Qed.

Lemma resample_one_sums d i w s s' :
  resample_one d i w s = Ok s' →
  (∀ d', row_sum (doc_topic_counts s'.1) d'
         = row_sum (doc_topic_counts s.1) d')
  ∧ (∀ j, (col_sum (doc_topic_counts s'.1) j
           - col_sum (term_topic_count s'.1) j
           = col_sum (doc_topic_counts s.1) j
             - col_sum (term_topic_count s.1) j)%Z)
  ∧ mat_sum (doc_topic_counts s'.1) = mat_sum (doc_topic_counts s.1)
  ∧ mat_sum (term_topic_count s'.1) = mat_sum (term_topic_count s.1).
Proof.
  intros H.
  apply resample_one_inv in H as (st1 & ws & Hrm & _ & _ & _ & Hadd).
  apply remove_word_sums in Hrm
    as (topics & k & _ & _ & Hr1 & Hc1 & Ht1 & Hm1 & Hn1).
  apply add_back_sums in Hadd as (Hr2 & Hc2 & Ht2 & Hm2 & Hn2).
  repeat split; intros.
  - rewrite Hr2, Hr1. lia.
  - rewrite Hc2, Ht2, Hc1, Ht1. lia.
  - lia.
  - lia.
Qed.

Lemma resample_one_ok d i w doc s :
  wf s.1 → text s.1 !! d = Some doc → doc !! i = Some w →
  ∃ s', resample_one d i w s = Ok s'.
Proof.
  intros Hwf Hd Hi.
  destruct (remove_word_ok _ _ _ _ _ Hwf Hd Hi) as [st1 Hrm].
  pose proof (wf_remove_word _ _ _ _ _ Hwf Hrm) as Hwf1.
  pose proof (remove_word_frame _ _ _ _ _ Hrm) as (Htok & _ & HK & Htxt & _).
  destruct (wf_position _ _ _ _ _ Hwf Hd Hi)
    as (topics & k & r & _ & _ & Hr & Hdl & _ & _).
  destruct (conditional_weights_lookup st1 d w r) as (ws & Hws & Hlen & _);
    [done|by rewrite Htxt|by rewrite Htok|].
  assert (ws ≠ []) as Hne.
  { intros ->. simpl in Hlen. pose proof (wf_K _ Hwf1). lia. }
  pose proof (resample_one_draw_lt d w s _ _ Hwf1 Hws Hne) as Hlt.
  destruct (add_back_ok st1 d i doc w _ Hwf1 ltac:(by rewrite Htxt) Hi Hlt)
    as [st2 Hadd].
  unfold resample_one. rewrite Hrm. simpl. rewrite Hws. simpl.
  rewrite draw_topic_cons by (destruct ws; [done|discriminate]).
  simpl. destruct (multinomial_hot (normalize ws) s.2) as [k' g'].
  simpl in *. rewrite Hadd. simpl. eauto.
Qed.

End Resample.

(** ** Construction *)

Lemma sumZ_fmap_ext {A : Type} (f g : A → Z) (l : list A) :
  (∀ x, x ∈ l → f x = g x) → sumZ (f <$> l) = sumZ (g <$> l).
Proof.
  induction l as [|x l IH]; intros Hfg; csimpl; [reflexivity|].
  rewrite Hfg by left. rewrite IH; [reflexivity|].
  intros y Hy. apply Hfg. by right.
Qed.

Lemma sumZ_ind_seq (x a n : nat) :
  sumZ ((λ k, ind (x = k)) <$> seq a n) = ind (a ≤ x < a + n).
Proof.
  revert a. induction n as [|n IH]; intros a; csimpl.
  - unfold ind. rewrite decide_False by lia. reflexivity.
  - rewrite IH. unfold ind. repeat case_decide; lia.
Qed.

Lemma length_filter_cons_eq (x j : nat) (l : list nat) :
  Z.of_nat (length (filter (λ y, y = j) (x :: l)))
  = (ind (x = j) + Z.of_nat (length (filter (λ y, y = j) l)))%Z.
Proof.
  rewrite filter_cons. unfold ind. case_decide; simpl; lia.
Qed.

Section Init.
Context {F G : Type} {FO : Float F} {RS : RandomState F G}.

Lemma draw_doc_topic_inv K text g dt g' :
  draw_doc_topic K text g = Ok (dt, g') →
  Forall2 (doc_topic_shape K) text dt ∧ (text ≠ [] → (0 < K)%Z).
Proof.
  revert g dt g'. induction text as [|doc text IH]; intros g dt g' H;
    simpl in H.
  - injection H as <- <-. split; [constructor|done].
  - apply bind_Ok_inv in H as ([topics g1] & Hdraw & H).
    apply bind_Ok_inv in H as ([rest g2] & Hrest & H).
    injection H as <- <-. unfold np_random_randint in Hdraw.
    case_decide as HK; [|discriminate]. injection Hdraw as Hdraw.
    destruct (IH _ _ _ Hrest) as [Hshape _]. split; [|done].
    constructor; [|done]. split.
    + pose proof (randint_length K (length doc) g HK) as Hl.
      by rewrite Hdraw in Hl.
    + pose proof (randint_range K (length doc) g HK) as Hl.
      by rewrite Hdraw in Hl.
Qed.

Lemma draw_doc_topic_ok K text g :
  (0 < K)%Z → ∃ dt g', draw_doc_topic K text g = Ok (dt, g').
Proof.
  intros HK. revert g. induction text as [|doc text IH]; intros g; simpl.
  - eauto.
  - unfold np_random_randint. rewrite decide_True by done. simpl.
    destruct (randint K (length doc) g) as [topics g1].
    destruct (IH g1) as (rest & g2 & ->). simpl. eauto.
Qed.

Lemma Counter_row_length K topics :
  length (Counter_row K topics) = Z.to_nat K.
Proof. unfold Counter_row, range. by rewrite length_fmap, length_seq. Qed.

Lemma Counter_row_nth K topics j :
  j < Z.to_nat K →
  nth j (Counter_row K topics) 0%Z
  = Z.of_nat (length (filter (λ x, x = j) topics)).
Proof.
  intros Hj. rewrite nth_lookup. unfold Counter_row, range.
  rewrite list_lookup_fmap, lookup_seq_lt by done. reflexivity.
Qed.

Lemma Counter_row_sum K topics :
  Forall (λ k, (Z.of_nat k < K)%Z) topics →
  sumZ (Counter_row K topics) = Z.of_nat (length topics).
Proof.
  unfold Counter_row, range.
  induction 1 as [|x topics Hx _ IH].
  - simpl. induction (seq 0 (Z.to_nat K)) as [|? ? IH]; csimpl; lia.
  - erewrite sumZ_fmap_ext
      by (intros; apply (length_filter_cons_eq x)).
    rewrite (sumZ_map_add (λ k, ind (x = k))), IH, sumZ_ind_seq.
    unfold ind. rewrite decide_True by lia. simpl length. lia.
Qed.

(** The tallying of one document into [term_topic_count]. *)
Lemma tally_doc tokens cols topics doc m :
  table_shape m (length tokens) cols →
  length topics = length doc →
  Forall (λ k, k < cols) topics →
  Forall (λ w, w ∈ tokens) doc →
  ∃ m',
    for_each (λ '(topic, word) m, term_loc_iadd tokens m word topic 1%Z)
             (zip topics doc) m = Ok m'
    ∧ table_shape m' (length tokens) cols
    ∧ (∀ j, col_sum m' j
            = (col_sum m j
               + Z.of_nat (length (filter (λ x, x = j) topics)))%Z)
    ∧ mat_sum m' = (mat_sum m + Z.of_nat (length doc))%Z.
Proof.
  intros Hm Hlen Htopics. revert doc m Hm Hlen.
  induction Htopics as [|k topics Hk _ IH]; intros doc m Hm Hlen Hdoc.
  - destruct doc; [|done]. simpl. exists m. repeat split; try apply Hm.
    + intros j. simpl. lia.
    + lia.
  - destruct doc as [|w doc]; [done|]. simpl in Hlen.
    apply Forall_cons in Hdoc as [Hw Hdoc]. simpl.
    destruct (get_loc_elem_of _ _ Hw) as [r Hr].
    unfold term_loc_iadd at 1. rewrite Hr. simpl.
    destruct (loc_iadd_ok m _ _ r k 1 Hm) as [m1 Hm1];
      [by eapply get_loc_lt|done|].
    rewrite Hm1. simpl.
    destruct (IH doc m1) as (m' & Hrun & Hshape & Hcol & Hmat);
      [by eapply loc_iadd_shape|lia|done|].
    exists m'. repeat split; try done; try apply Hshape.
    + intros j. rewrite Hcol, (loc_iadd_col_sum _ _ _ _ _ _ Hm1).
      rewrite length_filter_cons_eq. unfold ind.
      repeat case_decide; lia.
    + rewrite Hmat, (loc_iadd_mat_sum _ _ _ _ _ Hm1). simpl length. lia.
Qed.

Lemma for_each_range_zip {A B St : Type} (body : A → B → St → result St)
    (pre1 l1 : list A) (pre2 l2 : list B) (s : St) :
  length pre1 = length pre2 → length l1 = length l2 →
  for_each (λ d s, let* a := ix (pre1 ++ l1) d in
                   let* b := ix (pre2 ++ l2) d in body a b s)
           (seq (length pre1) (length l2)) s
  = for_each (λ '(a, b) s, body a b s) (zip l1 l2) s.
Proof.
  revert pre1 pre2 l2 s.
  induction l1 as [|a l1 IH]; intros pre1 pre2 [|b l2] s Hpre Hl;
    try done.
  simpl. unfold ix at 1 2.
  rewrite list_lookup_middle by done.
  rewrite list_lookup_middle by done. simpl.
  destruct (body a b s) as [s'|e]; simpl; [|reflexivity].
  rewrite (cons_middle a pre1 l1), (cons_middle b pre2 l2), !app_assoc.
  replace (S (length pre1)) with (length (pre1 ++ [a]))
    by (rewrite length_app; simpl; lia).
  apply IH; [|by injection Hl].
  rewrite !length_app. simpl. lia.
Qed.

Lemma tally_terms_spec tokens K text dt m :
  table_shape m (length tokens) (Z.to_nat K) →
  Forall2 (doc_topic_shape K) text dt →
  (∀ doc w, doc ∈ text → w ∈ doc → w ∈ tokens) →
  ∃ m',
    tally_terms tokens text dt m = Ok m'
    ∧ table_shape m' (length tokens) (Z.to_nat K)
    ∧ (∀ j, col_sum m' j
            = (col_sum m j
               + sumZ ((λ topics,
                          Z.of_nat (length (filter (λ x, x = j) topics)))
                       <$> dt))%Z)
    ∧ mat_sum m' = (mat_sum m + total_words text)%Z.
Proof.
  intros Hm Hshape Htok. unfold tally_terms, range.
  rewrite Nat2Z.id.
  pose proof (for_each_range_zip
             (λ topics doc m,
                for_each (λ '(topic, word) m,
                            term_loc_iadd tokens m word topic 1%Z)
                         (zip topics doc) m) [] dt [] text m eq_refl
             (eq_sym (Forall2_length _ _ _ Hshape))) as Hzip.
  simpl in Hzip. rewrite Hzip. clear Hzip.
  revert m Hm. induction Hshape as [|doc topics text dt [Hlen Hr] _ IH];
    intros m Hm.
  - simpl. exists m. repeat split; try apply Hm; intros; unfold total_words;
      csimpl; lia.
  - simpl.
    destruct (tally_doc tokens (Z.to_nat K) topics doc m)
      as (m1 & Hrun & Hm1 & Hcol1 & Hmat1); try done.
    { eapply Forall_impl; [exact Hr|]. simpl. intros. lia. }
    { apply Forall_forall. intros w Hw. eapply Htok; [by left|done]. }
    rewrite Hrun. simpl.
    destruct (IH ltac:(intros ????; eapply Htok; [by right|done]) m1 Hm1)
      as (m' & Hrun' & Hm' & Hcol' & Hmat').
    exists m'. repeat split; try done; try apply Hm'.
    + intros j. rewrite Hcol', Hcol1. unfold fmap. lia.
    + rewrite Hmat', Hmat1. unfold total_words, fmap. simpl. lia.
Qed.

End Init.

Lemma elem_of_concat_2 {A : Type} (ls : list (list A)) (l : list A) (x : A) :
  l ∈ ls → x ∈ l → x ∈ concat ls.
Proof.
  rewrite !list_elem_of_In. intros Hl Hx. apply in_concat. eauto.
Qed.

Lemma table_shape_zeros (rows cols : nat) :
  table_shape (replicate rows (replicate cols 0%Z)) rows cols.
Proof.
  split; [by rewrite length_replicate|].
  apply Forall_replicate. by rewrite length_replicate.
Qed.

Lemma col_sum_zeros (rows cols j : nat) :
  col_sum (replicate rows (replicate cols 0%Z)) j = 0%Z.
Proof.
  unfold col_sum. induction rows as [|rows IH]; csimpl; [reflexivity|].
  rewrite IH, nth_lookup.
  destruct (replicate cols 0%Z !! j) as [x|] eqn:Hx; simpl; [|reflexivity].
  apply lookup_replicate in Hx as [-> _]. reflexivity.
Qed.

Lemma mat_sum_zeros (rows cols : nat) :
  mat_sum (replicate rows (replicate cols 0%Z)) = 0%Z.
Proof.
  unfold mat_sum. induction rows as [|rows IH]; csimpl; [reflexivity|].
  rewrite IH, sumZ_replicate_0. reflexivity.
Qed.

Section InitSpec.
Context {F G : Type} {FO : Float F} {RS : RandomState F G}.

Lemma mat_sum_Counter K text dt :
  Forall2 (doc_topic_shape K) text dt →
  mat_sum (Counter_row K <$> dt) = total_words text.
Proof.
  unfold mat_sum, total_words.
  induction 1 as [|doc topics text dt [Hlen Hr] _ IH]; [reflexivity|].
  rewrite !fmap_cons. cbn [sumZ]. rewrite IH, Counter_row_sum by done.
  by rewrite Hlen.
Qed.

Lemma col_sum_Counter K dt j :
  j < Z.to_nat K →
  col_sum (Counter_row K <$> dt) j
  = sumZ ((λ topics, Z.of_nat (length (filter (λ x, x = j) topics)))
          <$> dt).
Proof.
  intros Hj. unfold col_sum. rewrite <- list_fmap_compose.
  apply sumZ_fmap_ext. intros topics _. simpl.
  by apply Counter_row_nth.
Qed.

(** What a successful construction has computed. *)
Lemma init_inv text K g (st : Gibbs F) (g' : G) :
  __init__ text K g = Ok (st, g') →
  (0 < K)%Z ∧ remove_dups (concat text) ≠ []
  ∧ ∃ dt ttc a b,
      draw_doc_topic K text g = Ok (dt, g')
      ∧ tally_terms (remove_dups (concat text)) text dt
          (replicate (length (remove_dups (concat text)))
                     (replicate (Z.to_nat K) 0%Z)) = Ok ttc
      ∧ st = mkGibbs (remove_dups (concat text))
               (Z.of_nat (length (remove_dups (concat text)))) K text dt
               (Counter_row K <$> dt) ttc a b [].
Proof.
  unfold __init__. intros H.
  apply bind_Ok_inv in H as ([dt g1] & Hdraw & H).
  apply bind_Ok_inv in H as (zeros & Hzeros & H).
  apply bind_Ok_inv in H as (ttc & Htally & H).
  apply bind_Ok_inv in H as (a & Ha & H).
  apply bind_Ok_inv in H as (b & Hb & H).
  injection H as <- <-.
  unfold np_zeros in Hzeros. case_decide as Hneg; [discriminate|].
  injection Hzeros as <-.
  unfold py_div in Ha, Hb.
  destruct (decide (K = 0%Z)) as [|HK0]; [discriminate|].
  destruct (decide (Z.of_nat (length (remove_dups (concat text))) = 0%Z))
    as [|HV0]; [discriminate|].
  rewrite Nat2Z.id in Htally.
  split; [lia|]. split.
  { intros Hnil. rewrite Hnil in HV0. simpl in HV0. lia. }
  eauto 10.
Qed.

Lemma init_spec text K g (st : Gibbs F) (g' : G) :
  __init__ text K g = Ok (st, g') →
  wf st ∧ row_inv st ∧ col_inv st ∧ total_inv st.
Proof.
  intros H.
  apply init_inv in H
    as (HK & HV & dt & ttc & a & b & Hdraw & Htally & ->).
  apply draw_doc_topic_inv in Hdraw as [Hshape _].
  destruct (tally_terms_spec (remove_dups (concat text)) K text dt _
              (table_shape_zeros _ _) Hshape)
    as (ttc' & Htally' & Httc & Hcol & Hmat).
  { intros doc w Hdoc Hw. apply elem_of_remove_dups.
    by eapply elem_of_concat_2. }
  rewrite Htally in Htally'. injection Htally' as <-.
  repeat split; simpl; try done.
  - apply NoDup_remove_dups.
  - intros doc w Hdoc Hw. apply elem_of_remove_dups.
    by eapply elem_of_concat_2.
  - rewrite length_fmap. symmetry. by eapply Forall2_length.
  - apply Forall_fmap, Forall_forall. intros topics _. simpl.
    apply Counter_row_length.
  - apply Httc.
  - apply Httc.
  - intros d doc Hd. simpl in *.
    destruct (Forall2_lookup_l _ _ _ _ _ Hshape Hd)
      as (topics & Ht & Hlen & Hr).
    unfold row_sum. rewrite list_lookup_fmap, Ht. simpl.
    rewrite Counter_row_sum by done. by rewrite Hlen.
  - intros j Hj. simpl in *.
    rewrite Hcol, col_sum_zeros, col_sum_Counter by done. lia.
  - by apply mat_sum_Counter.
  - rewrite Hmat, mat_sum_zeros. lia.
Qed.

Lemma init_frame txt k g (st : Gibbs F) (g' : G) :
  __init__ txt k g = Ok (st, g') →
  text st = txt ∧ K st = k ∧ tokens st = remove_dups (concat txt)
  ∧ V st = Z.of_nat (length (remove_dups (concat txt)))
  ∧ perplexity_scores st = [].
Proof.
  intros H. apply init_inv in H as (_ & _ & ? & ? & ? & ? & _ & _ & ->).
  by repeat split.
Qed.

Lemma init_ok text K (g : G) :
  (0 < K)%Z → remove_dups (concat text) ≠ [] →
  ∃ (st : Gibbs F) g', __init__ text K g = Ok (st, g').
Proof.
  intros HK HV. unfold __init__.
  destruct (draw_doc_topic_ok K text g HK) as (dt & g' & Hdraw).
  rewrite Hdraw. simpl.
  apply draw_doc_topic_inv in Hdraw as [Hshape _].
  unfold np_zeros. rewrite decide_False by lia. simpl.
  rewrite Nat2Z.id.
  destruct (tally_terms_spec (remove_dups (concat text)) K text dt _
              (table_shape_zeros _ _) Hshape)
    as (ttc & -> & _).
  { intros doc w Hdoc Hw. apply elem_of_remove_dups.
    by eapply elem_of_concat_2. }
  simpl. unfold py_div. rewrite decide_False by lia. simpl.
  rewrite decide_False; [simpl; eauto|].
  destruct (remove_dups (concat text)); [done|]. simpl. lia.
Qed.

End InitSpec.

(** ** Rows of a table as functions of the column label *)

Lemma row_as_fmap (m : list (list Z)) (r n : nat) (row : list Z) :
  m !! r = Some row → length row = n → row = entry m r <$> seq 0 n.
Proof.
  intros Hr Hn. apply list_eq. intros i. rewrite list_lookup_fmap.
  destruct (decide (i < n)) as [Hi|Hi].
  - rewrite lookup_seq_lt by done. simpl. unfold entry.
    rewrite (nth_lookup m r), Hr. simpl.
    destruct (lookup_lt_is_Some_2 row i) as [x Hx]; [lia|].
    by rewrite nth_lookup, Hx.
  - rewrite lookup_seq_ge by lia. simpl. apply lookup_ge_None. lia.
Qed.

Lemma zip_with_fmap_seq {A B C : Type} (f : A → B → C) (g : nat → A)
    (h : nat → B) (a n : nat) :
  zip_with f (g <$> seq a n) (h <$> seq a n)
  = (λ k, f (g k) (h k)) <$> seq a n.
Proof.
  revert a. induction n as [|n IH]; intros a; csimpl; [reflexivity|].
  f_equal. apply IH.
Qed.

Lemma column_as_fmap {A : Type} (g : Z → A) (pre m : list (list Z))
    (cols k : nat) :
  Forall (λ row, length row = cols) m → k < cols →
  omap (λ row : list A, row !! k) (fmap (M:=list) g <$> m)
  = (λ r, g (entry (pre ++ m) r k)) <$> seq (length pre) (length m).
Proof.
  intros Hm Hk. revert pre.
  induction Hm as [|row m Hrow _ IH]; intros pre; csimpl; [reflexivity|].
  rewrite list_lookup_fmap.
  destruct (lookup_lt_is_Some_2 row k) as [x Hx]; [lia|].
  rewrite Hx. simpl. f_equal.
  - unfold entry. rewrite (nth_lookup _ (length pre)).
    rewrite list_lookup_middle by done. simpl.
    by rewrite nth_lookup, Hx.
  - rewrite (cons_middle row pre m), app_assoc.
    replace (S (length pre)) with (length (pre ++ [row]))
      by (rewrite length_app; simpl; lia).
    apply IH.
Qed.

Lemma apply_rows_fmap {A B : Type} (f : A → result B) (g : A → B)
    (l : list A) :
  (∀ x, x ∈ l → f x = Ok (g x)) → apply_rows f l = Ok (g <$> l).
Proof.
  induction l as [|x l IH]; intros Hfg; csimpl; [reflexivity|].
  rewrite Hfg by left. simpl. rewrite IH; [reflexivity|].
  intros y Hy. apply Hfg. by right.
Qed.

Lemma enumerate_from_lookup {A : Type} (a : nat) (l : list A) (p : nat * A) :
  p ∈ enumerate_from a l → a ≤ p.1 ∧ l !! (p.1 - a) = Some p.2.
Proof.
  revert a. induction l as [|x l IH]; intros a Hp; simpl in Hp.
  - by apply elem_of_nil in Hp.
  - apply elem_of_cons in Hp as [->|Hp].
    + simpl. by rewrite Nat.sub_diag.
    + apply IH in Hp as [Hle Hl]. split; [lia|].
      replace (p.1 - a) with (S (p.1 - S a)) by lia. done.
Qed.

Lemma enumerate_lookup {A : Type} (l : list A) (p : nat * A) :
  p ∈ enumerate l → l !! p.1 = Some p.2.
Proof.
  intros Hp. apply enumerate_from_lookup in Hp as [_ Hp].
  by rewrite Nat.sub_0_r in Hp.
Qed.

(** ** The perplexity evaluator *)

Section Perplexity.
Context {F : Type} {FO : Float F}.
Implicit Types st : Gibbs F.

Lemma dt_table_lookup st d :
  wf st → d < length (text st) →
  dt_table st !! d = Some (dt_spec st d <$> range (K st)).
Proof.
  intros Hwf Hd. destruct (wf_doc_topic_counts _ Hwf) as [Hlen Hrows].
  destruct (lookup_lt_is_Some_2 (doc_topic_counts st) d) as [row Hrow];
    [lia|].
  pose proof (Forall_lookup_1 _ _ _ _ Hrows Hrow) as Hrl. simpl in Hrl.
  unfold dt_table. rewrite list_lookup_fmap, Hrow. simpl. f_equal.
  rewrite (row_as_fmap _ _ _ _ Hrow Hrl). unfold range.
  rewrite <- !list_fmap_compose. reflexivity.
Qed.

Lemma tt_table_lookup st r :
  wf st → r < length (tokens st) →
  tt_table st !! r = Some (tt_spec st r <$> range (K st)).
Proof.
  intros Hwf Hr. destruct (wf_term_topic_count _ Hwf) as [Hlen Hrows].
  destruct (lookup_lt_is_Some_2 (term_topic_count st) r) as [row Hrow];
    [lia|].
  pose proof (Forall_lookup_1 _ _ _ _ Hrows Hrow) as Hrl. simpl in Hrl.
  unfold tt_table. rewrite !list_lookup_fmap, Hrow. simpl. f_equal.
  rewrite (row_as_fmap _ _ _ _ Hrow Hrl). unfold range.
  rewrite <- list_fmap_compose.
  rewrite (zip_with_fmap_seq fdiv). apply list_fmap_ext.
  intros i k Hk. apply lookup_seq in Hk as [-> Hk]. simpl.
  unfold tt_spec. do 2 f_equal.
  rewrite (column_as_fmap _ [] _ _ _ Hrows Hk).
  simpl. by rewrite Hlen.
Qed.

Lemma prob_spec st d doc :
  wf st → text st !! d = Some doc →
  prob st (dt_table st) (tt_table st) (d, doc)
  = Ok (foldl (λ acc w,
           fadd acc
             (flog (fsum ((λ k, fmul (tt_spec st (token_row st w) k)
                                     (dt_spec st d k))
                          <$> range (K st)))))
         (of_Z 0) doc).
Proof.
  intros Hwf Hd. unfold prob. cbn [fst snd].
  assert (Forall (λ w, w ∈ tokens st) doc) as Hdoc.
  { apply Forall_forall. intros w Hw.
    eapply wf_tokens; eauto using list_elem_of_lookup_2. }
  apply lookup_lt_Some in Hd.
  match goal with |- for_each ?b _ _ = Ok (foldl ?f _ _) =>
    assert (∀ w acc, w ∈ tokens st → b w acc = Ok (f acc w)) as Hstep end.
  { intros w acc Hw. cbn beta.
    destruct (get_loc_elem_of _ _ Hw) as [r Hr].
    unfold token_row. rewrite Hr. cbn [bind].
    rewrite (ix_lookup _ _ _ (tt_table_lookup st r Hwf
               ltac:(by eapply get_loc_lt))).
    rewrite (ix_lookup _ _ _ (dt_table_lookup st d Hwf Hd)). cbn [bind].
    unfold range. by rewrite (zip_with_fmap_seq fmul). }
  generalize (of_Z 0). induction Hdoc as [|w doc Hw _ IH]; intros acc;
    cbn [for_each foldl]; [reflexivity|].
  rewrite Hstep by done. cbn [bind]. apply IH.
Qed.

Lemma perplexity_value_spec st :
  wf st → perplexity_value st = Ok (perplexity_spec st).
Proof.
  intros Hwf. unfold perplexity_value.
  rewrite (apply_rows_fmap _
    (λ '(d, doc),
       foldl (λ acc w,
           fadd acc
             (flog (fsum ((λ k, fmul (tt_spec st (token_row st w) k)
                                     (dt_spec st d k))
                          <$> range (K st)))))
         (of_Z 0) doc)).
  - reflexivity.
  - intros [d doc] Hp. apply enumerate_lookup in Hp.
    by apply prob_spec.
Qed.

Lemma perplexity_spec_ok st :
  wf st →
  perplexity st
  = Ok (set_perplexity_scores st
          (perplexity_scores st ++ [perplexity_spec st])).
Proof.
  intros Hwf. unfold perplexity.
  by rewrite (perplexity_value_spec _ Hwf).
Qed.

Lemma perplexity_inv st st' :
  perplexity st = Ok st' →
  ∃ p, st' = set_perplexity_scores st (perplexity_scores st ++ [p]).
Proof. unfold perplexity. intros H. inv_ok. subst. eauto. Qed.

End Perplexity.

(** ** The visiting order of a pass *)

Lemma elem_of_concat {A : Type} (ls : list (list A)) (x : A) :
  x ∈ concat ls ↔ ∃ l, l ∈ ls ∧ x ∈ l.
Proof.
  rewrite list_elem_of_In, in_concat. split; intros (l & Hl & Hx); exists l.
  - by rewrite !list_elem_of_In.
  - by rewrite <- !list_elem_of_In.
Qed.

Lemma enumerate_from_elem_of {A : Type} (a : nat) (l : list A) (p : nat * A) :
  p ∈ enumerate_from a l ↔ a ≤ p.1 ∧ l !! (p.1 - a) = Some p.2.
Proof.
  split; [apply enumerate_from_lookup|].
  revert a. induction l as [|x l IH]; intros a [Hle Hl]; [done|].
  simpl. destruct (decide (p.1 = a)) as [Hpa|Hpa].
  - rewrite Hpa, Nat.sub_diag in Hl. injection Hl as Hx.
    destruct p as [n y]. simpl in *. subst. by left.
  - right. apply IH. split; [lia|].
    replace (p.1 - a) with (S (p.1 - S a)) in Hl by lia. done.
Qed.

Lemma enumerate_elem_of {A : Type} (l : list A) (i : nat) (x : A) :
  (i, x) ∈ enumerate l ↔ l !! i = Some x.
Proof.
  unfold enumerate. rewrite enumerate_from_elem_of. simpl.
  rewrite Nat.sub_0_r. split; [by intros [_ ?]|]. split; [lia|done].
Qed.

Lemma enumerate_length {A : Type} (l : list A) :
  length (enumerate l) = length l.
Proof.
  unfold enumerate. generalize 0.
  induction l as [|x l IH]; intros a; simpl; [reflexivity|]. by rewrite IH.
Qed.

Lemma enumerate_from_sorted {A B : Type} (R : relation B)
    (h : nat * A → B) (a : nat) (l : list A) :
  (∀ p q, p.1 < q.1 → R (h p) (h q)) →
  StronglySorted R (h <$> enumerate_from a l).
Proof.
  intros HR. revert a. induction l as [|x l IH]; intros a; csimpl.
  - constructor.
  - apply StronglySorted_cons. split; [|apply IH].
    apply Forall_fmap, Forall_forall. intros p Hp. simpl.
    apply enumerate_from_lookup in Hp as [Hle _]. apply HR. simpl. lia.
Qed.

Section Positions.
Context {F G : Type} {FO : Float F} {RS : RandomState F G}.

Lemma positions_elem_of (txt : list (list string)) d i w :
  (d, i, w) ∈ positions txt
  ↔ ∃ doc, txt !! d = Some doc ∧ doc !! i = Some w.
Proof.
  unfold positions. rewrite elem_of_concat. split.
  - intros (l & Hl & Hp).
    apply list_elem_of_fmap in Hl as ([d' doc] & -> & Hd).
    apply list_elem_of_fmap in Hp as ([i' w'] & Heq & Hi).
    injection Heq as -> -> ->.
    apply enumerate_elem_of in Hd. apply enumerate_elem_of in Hi. eauto.
  - intros (doc & Hd & Hi).
    exists ((λ '(i, w), (d, i, w)) <$> enumerate doc). split.
    + apply list_elem_of_fmap. exists (d, doc).
      split; [done|]. by apply enumerate_elem_of.
    + apply list_elem_of_fmap. exists (i, w).
      split; [done|]. by apply enumerate_elem_of.
Qed.

Lemma positions_from_sorted (a : nat) (txt : list (list string)) :
  StronglySorted position_lt
    (concat ((λ '(d, doc), (λ '(i, w), (d, i, w)) <$> enumerate doc)
             <$> enumerate_from a txt))
  ∧ Forall (λ p, a ≤ p.1.1)
      (concat ((λ '(d, doc), (λ '(i, w), (d, i, w)) <$> enumerate doc)
               <$> enumerate_from a txt)).
Proof.
  revert a. induction txt as [|doc txt IH]; intros a; csimpl.
  - split; constructor.
  - destruct (IH (S a)) as [Hs Hf]. split.
    + apply StronglySorted_app_2; [| |done].
      * intros p q Hp Hq.
        apply list_elem_of_fmap in Hp as ([i w] & -> & _).
        rewrite Forall_forall in Hf. apply Hf in Hq.
        left. simpl. lia.
      * apply (enumerate_from_sorted position_lt
                 (λ '(i, w), (a, i, w)) 0 doc).
        intros [i w] [i' w'] Hlt. right. simpl in *. split; [done|lia].
    + apply Forall_app. split.
      * apply Forall_fmap, Forall_forall. intros [i w] _. simpl. lia.
      * eapply Forall_impl; [exact Hf|]. simpl. intros. lia.
Qed.

Lemma positions_sorted (txt : list (list string)) :
  StronglySorted position_lt (positions txt).
Proof. apply (positions_from_sorted 0 txt). Qed.

Lemma position_lt_irrefl p : ¬ position_lt p p.
Proof. unfold position_lt. lia. Qed.

Lemma positions_NoDup (txt : list (list string)) : NoDup (positions txt).
Proof.
  pose proof (positions_sorted txt) as Hs.
  induction Hs as [|p l _ IH Hp]; constructor; [|done].
  intros Hin. rewrite Forall_forall in Hp.
  by eapply position_lt_irrefl, Hp.
Qed.

Lemma positions_length (txt : list (list string)) :
  Z.of_nat (length (positions txt)) = total_words txt.
Proof.
  unfold positions, total_words.
  change (enumerate txt) with (enumerate_from 0 txt). generalize 0.
  induction txt as [|doc txt IH]; intros a; csimpl; [reflexivity|].
  rewrite length_app, length_fmap, Nat2Z.inj_add, IH. f_equal.
  by rewrite enumerate_length.
Qed.

End Positions.

(** ** Reachable states, passes and runs *)

Lemma for_each_fmap {A B S : Type} (h : A → B) (body : B → S → result S)
    (l : list A) (s : S) :
  for_each body (h <$> l) s = for_each (λ x, body (h x)) l s.
Proof.
  revert s. induction l as [|x l IH]; intros s; csimpl; [reflexivity|].
  destruct (body (h x) s); simpl; [apply IH|reflexivity].
Qed.

Section Sweep.
Context {F G : Type} {FO : Float F} {RS : RandomState F G}.
Implicit Types st : Gibbs F.
Implicit Types s : Gibbs F * G.

Lemma reachable_inv st :
  reachable st → wf st ∧ row_inv st ∧ col_inv st ∧ total_inv st.
Proof.
  induction 1 as [txt k g st g' Hinit
                 |st g d i w doc st' g' _ IH Hd Hi Hrs
                 |st st' _ IH Hp].
  - eapply init_spec, Hinit.
  - destruct IH as (Hwf & Hrow & Hcol & Htot1 & Htot2).
    pose proof (wf_resample_one _ _ _ (st, g) _ Hwf Hrs) as Hwf'.
    pose proof (resample_one_sums _ _ _ _ _ Hrs) as (Hr & Hc & Hm & Hn).
    pose proof (resample_one_frame _ _ _ _ _ Hrs)
      as (_ & _ & HK & Htxt & _).
    simpl in *. split; [done|]. split; [|split; [|split]].
    + intros d' doc' Hd'. rewrite Hr. apply Hrow. by rewrite <- Htxt.
    + intros j Hj. pose proof (Hc j) as Hcj. rewrite HK in Hj.
      pose proof (Hcol j Hj). lia.
    + rewrite Hm, Htxt. done.
    + rewrite Hn, Htxt. done.
  - destruct IH as (Hwf & Hrow & Hcol & Htot).
    apply perplexity_inv in Hp as [p ->].
    split; [by destruct Hwf|done].
Qed.

Lemma reachable_wf st : reachable st → wf st.
Proof. intros H. by apply reachable_inv in H as (? & _). Qed.

(** *** Nested loops against the flat list of visits *)

Lemma sweep_doc_flat d doc s :
  d < length (doc_topic s.1) →
  sweep_doc (d, doc) s
  = for_each visit ((λ '(i, w), (d, i, w)) <$> enumerate doc) s.
Proof.
  intros Hd. unfold sweep_doc. cbn [fst snd].
  destruct (lookup_lt_is_Some_2 _ _ Hd) as [topics Ht].
  rewrite (ix_lookup _ _ _ Ht). cbn [bind].
  rewrite for_each_fmap. apply for_each_ext_in.
  by intros [i w] s' _.
Qed.

Lemma visits_frame (ps : list (nat * nat * string)) s s' :
  wf s.1 → for_each visit ps s = Ok s' →
  wf s'.1 ∧ text s'.1 = text s.1
  ∧ perplexity_scores s'.1 = perplexity_scores s.1.
Proof.
  intros Hwf Hrun.
  eapply (for_each_preserves
            (λ t, wf t.1 ∧ text t.1 = text s.1
                  ∧ perplexity_scores t.1 = perplexity_scores s.1));
    [|cbn beta; split; [done|by split]|exact Hrun].
  intros [[d i] w] t t' _ (Hwft & Htxt & Hsc) Hv. unfold visit in Hv.
  simpl in Hv.
  pose proof (resample_one_frame _ _ _ _ _ Hv) as (_&_&_&Htxt'&_&_&Hsc').
  split; [by eapply wf_resample_one|]. split; congruence.
Qed.

Lemma sweep_flat_from (ds : list (nat * list string)) s :
  wf s.1 → Forall (λ p, p.1 < length (text s.1)) ds →
  for_each sweep_doc ds s
  = for_each visit
      (concat ((λ '(d, doc), (λ '(i, w), (d, i, w)) <$> enumerate doc)
               <$> ds)) s.
Proof.
  intros Hwf Hds. revert s Hwf Hds.
  induction ds as [|[d doc] ds IH]; intros s Hwf Hds; [reflexivity|].
  apply Forall_cons in Hds as [Hd Hds]. simpl in Hd.
  rewrite fmap_cons. cbn [concat for_each]. rewrite for_each_app.
  rewrite sweep_doc_flat
    by (rewrite <- (Forall2_length _ _ _ (wf_doc_topic _ Hwf)); done).
  destruct (for_each visit _ s) as [s1|e] eqn:Hrun; cbn [bind];
    [|reflexivity].
  apply visits_frame in Hrun as (Hwf1 & Htxt1 & _); [|done].
  apply IH; [done|]. by rewrite Htxt1.
Qed.

Lemma sweep_flat s :
  wf s.1 → sweep s = for_each visit (positions (text s.1)) s.
Proof.
  intros Hwf. unfold sweep, positions. apply sweep_flat_from; [done|].
  apply Forall_forall. intros p Hp. apply enumerate_lookup in Hp.
  by eapply lookup_lt_Some.
Qed.

(** *** Passes and runs succeed on reachable states *)

Lemma visits_ok (ps : list (nat * nat * string)) s :
  reachable s.1 →
  Forall (λ p, ∃ doc, text s.1 !! p.1.1 = Some doc
                      ∧ doc !! p.1.2 = Some p.2) ps →
  ∃ s', for_each visit ps s = Ok s' ∧ reachable s'.1.
Proof.
  intros Hreach Hps.
  destruct (for_each_invariant
              (λ t, reachable t.1 ∧ text t.1 = text s.1)
              (λ p, ∃ doc, text s.1 !! p.1.1 = Some doc
                           ∧ doc !! p.1.2 = Some p.2)
              visit ps s Hps) as (s' & Hrun & Hreach' & _);
    [|done|by eauto].
  intros [[d i] w] [st g] (doc & Hd & Hi) [Hr Htxt]. simpl in *.
  rewrite <- Htxt in Hd.
  destruct (resample_one_ok d i w doc (st, g) (reachable_wf _ Hr) Hd Hi)
    as [[st' g'] Hrs].
  exists (st', g'). split; [exact Hrs|]. split.
  - simpl. eapply reach_resample; eauto.
  - apply resample_one_frame in Hrs as (_&_&_&Htxt'&_). simpl in *.
    congruence.
Qed.

Lemma sweep_ok s :
  reachable s.1 → ∃ s', sweep s = Ok s' ∧ reachable s'.1.
Proof.
  intros Hreach. rewrite sweep_flat by by apply reachable_wf.
  apply visits_ok; [done|]. apply Forall_forall.
  intros [[d i] w] Hp. by apply positions_elem_of in Hp.
Qed.

Lemma iterate_step_ok step s :
  reachable s.1 → ∃ s', iterate_step step s = Ok s' ∧ reachable s'.1.
Proof.
  intros Hreach. unfold iterate_step, report. case_decide.
  - rewrite (perplexity_spec_ok _ (reachable_wf _ Hreach)). cbn [bind].
    apply sweep_ok. simpl. eapply reach_perplexity; [exact Hreach|].
    apply perplexity_spec_ok. by apply reachable_wf.
  - cbn [bind]. by apply sweep_ok.
Qed.

Lemma iterate_ok n s :
  reachable s.1 → ∃ s', iterate n s = Ok s' ∧ reachable s'.1.
Proof.
  intros Hreach. unfold iterate.
  apply (for_each_invariant (λ t, reachable t.1) (λ _, True));
    [by apply Forall_true| |done].
  intros step t _ Ht. by apply iterate_step_ok.
Qed.

(** *** The trace only grows *)

Lemma sweep_frame s s' :
  wf s.1 → sweep s = Ok s' →
  wf s'.1 ∧ text s'.1 = text s.1
  ∧ perplexity_scores s'.1 = perplexity_scores s.1.
Proof.
  intros Hwf Hrun. rewrite sweep_flat in Hrun by done.
  by apply visits_frame in Hrun.
Qed.

Lemma wf_perplexity st st' : wf st → perplexity st = Ok st' → wf st'.
Proof.
  intros Hwf Hp. apply perplexity_inv in Hp as [p ->]. by destruct Hwf.
Qed.

Lemma iterate_step_trace step s s' :
  wf s.1 → iterate_step step s = Ok s' →
  wf s'.1 ∧ perplexity_scores s.1 `prefix_of` perplexity_scores s'.1.
Proof.
  intros Hwf Hrun. unfold iterate_step in Hrun.
  apply bind_Ok_inv in Hrun as (s1 & Hs1 & Hrun).
  assert (wf s1.1 ∧ perplexity_scores s.1 `prefix_of` perplexity_scores s1.1)
    as [Hwf1 Hpre].
  { unfold report in Hs1. case_decide.
    - apply bind_Ok_inv in Hs1 as (st & Hp & Hs1). injection Hs1 as <-.
      simpl. split; [by eapply wf_perplexity|].
      apply perplexity_inv in Hp as [p ->]. simpl. by eexists.
    - by injection Hs1 as <-. }
  apply sweep_frame in Hrun as (Hwf' & _ & Hsc); [|done].
  split; [done|]. by rewrite Hsc.
Qed.

Lemma iterate_trace n s s' :
  wf s.1 → iterate n s = Ok s' →
  perplexity_scores s.1 `prefix_of` perplexity_scores s'.1.
Proof.
  intros Hwf Hrun.
  apply (for_each_preserves
           (λ t, wf t.1 ∧ perplexity_scores s.1
                          `prefix_of` perplexity_scores t.1)
           iterate_step (range n) s s'); [|done|exact Hrun].
  intros step t t' _ [Hwft Hpre] Hstep.
  apply iterate_step_trace in Hstep as [Hwft' Hpre']; [|done].
  split; [done|]. by etrans.
Qed.

End Sweep.

(** ** The topic reporter *)

Lemma insert_desc_perm (x : Z * string) (l : list (Z * string)) :
  insert_desc x l ≡ₚ x :: l.
Proof.
  induction l as [|y l IH]; simpl; [done|].
  case_decide; [|done]. rewrite IH. apply Permutation_swap.
Qed.

Lemma sort_desc_perm (l : list (Z * string)) : sort_desc l ≡ₚ l.
Proof.
  induction l as [|x l IH]; simpl; [done|].
  by rewrite insert_desc_perm, IH.
Qed.

Lemma insert_desc_sorted (x : Z * string) (l : list (Z * string)) :
  StronglySorted key_ge l → StronglySorted key_ge (insert_desc x l).
Proof.
  induction 1 as [|y l Hl IH Hy]; simpl.
  - repeat constructor.
  - case_decide as Hxy.
    + constructor; [done|].
      rewrite insert_desc_perm. constructor; [|done].
      unfold key_ge. lia.
    + constructor; [by constructor|]. constructor.
      * unfold key_ge. lia.
      * eapply Forall_impl; [exact Hy|]. unfold key_ge. intros. lia.
Qed.

Lemma sort_desc_sorted (l : list (Z * string)) :
  StronglySorted key_ge (sort_desc l).
Proof.
  induction l as [|x l IH]; simpl; [constructor|].
  by apply insert_desc_sorted.
Qed.

Lemma get_loc_NoDup (index : list string) (i : nat) (w : string) :
  NoDup index → index !! i = Some w → get_loc index w = Ok i.
Proof.
  intros Hnd Hi.
  destruct (get_loc_elem_of index w) as [p Hp];
    [by eapply list_elem_of_lookup_2|].
  rewrite Hp. f_equal. apply get_loc_lookup in Hp.
  by eapply NoDup_lookup.
Qed.

Section Reporter.
Context {F : Type} {FO : Float F}.
Implicit Types st : Gibbs F.

Lemma top_n_ok st topic n :
  wf st → topic < Z.to_nat (K st) →
  top_n st topic n = Ok ((head_n n (ranked st topic)).*2).
Proof.
  intros Hwf Ht. unfold top_n.
  rewrite (apply_rows_fmap _ (λ row, nth topic row 0%Z)); [done|].
  intros row Hrow. destruct (wf_term_topic_count _ Hwf) as [_ Hrows].
  rewrite Forall_forall in Hrows. apply Hrows in Hrow.
  destruct (lookup_lt_is_Some_2 row topic) as [x Hx]; [lia|].
  rewrite (ix_lookup _ _ _ Hx). by rewrite nth_lookup, Hx.
Qed.

Lemma ranked_elem_of st topic c w :
  wf st → (c, w) ∈ ranked st topic →
  w ∈ tokens st ∧ c = topic_count st topic w.
Proof.
  intros Hwf Hin. unfold ranked in Hin. rewrite sort_desc_perm in Hin.
  apply list_elem_of_lookup in Hin as [i Hi].
  apply lookup_zip_with_Some in Hi as (c' & w' & Heq & Hc & Hw).
  injection Heq as -> ->. split; [by eapply list_elem_of_lookup_2|].
  unfold topic_count, token_row.
  rewrite (get_loc_NoDup _ _ _ (wf_tokens_nodup _ Hwf) Hw).
  rewrite list_lookup_fmap in Hc. unfold entry.
  rewrite (nth_lookup _ i).
  destruct (term_topic_count st !! i); simpl in *; congruence.
Qed.

Lemma ranked_words st topic :
  wf st → (ranked st topic).*2 ≡ₚ tokens st.
Proof.
  intros Hwf. unfold ranked. rewrite sort_desc_perm.
  rewrite snd_zip; [done|].
  rewrite length_fmap. by rewrite (proj1 (wf_term_topic_count _ Hwf)).
Qed.

Lemma top_n_words_inv n st out st' :
  top_n_words n st = Ok (out, st') → st' = st.
Proof. unfold top_n_words. intros H. inv_ok. by subst. Qed.

Lemma top_n_words_ok n st :
  wf st →
  top_n_words n st
  = Ok ((λ topic, (n, topic, (head_n n (ranked st topic)).*2))
        <$> range (K st), st).
Proof.
  intros Hwf. unfold top_n_words.
  rewrite (apply_rows_fmap _
             (λ topic, (n, topic, (head_n n (ranked st topic)).*2)));
    [done|].
  intros topic Ht. apply elem_of_seq in Ht.
  rewrite top_n_ok by (done || lia). done.
Qed.

End Reporter.

(** ** Main results *)

Lemma for_each_ext_inv {A S : Type} (P : S → Prop)
    (f g : A → S → result S) (xs : list A) (s : S) :
  P s →
  (∀ x s, P s → f x s = g x s) →
  (∀ x s s', P s → f x s = Ok s' → P s') →
  for_each f xs s = for_each g xs s.
Proof.
  intros Hs Hfg Hpres. revert s Hs.
  induction xs as [|x xs IH]; intros s Hs; simpl; [reflexivity|].
  rewrite <- (Hfg x s Hs). destruct (f x s) as [s'|e] eqn:Hf; simpl;
    [|reflexivity].
  apply IH. by eapply Hpres.
Qed.

Section Main.
Context {F G : Type} {FO : Float F} {RS : RandomState F G}.
Implicit Types st : Gibbs F.
Implicit Types s : Gibbs F * G.

Lemma col_inv_remove_word st st1 d i w :
  col_inv st → remove_word d i w st = Ok st1 → col_inv st1.
Proof.
  intros Hcol Hrm j Hj.
  pose proof (remove_word_frame _ _ _ _ _ Hrm) as (_ & _ & HK & _).
  apply remove_word_sums in Hrm as (topics & k & _ & _ & _ & Hc & Ht & _).
  rewrite Hc, Ht, Hcol by (by rewrite <- HK). reflexivity.
Qed.

Lemma col_inv_add_back st st2 d i w k :
  col_inv st → add_back d i w k st = Ok st2 → col_inv st2.
Proof.
  intros Hcol Hadd j Hj.
  pose proof (add_back_frame _ _ _ _ _ _ Hadd) as (_ & _ & HK & _).
  apply add_back_sums in Hadd as (_ & Hc & Ht & _).
  rewrite Hc, Ht, Hcol by (by rewrite <- HK). reflexivity.
Qed.

Lemma remove_word_entries st st1 d i w :
  wf st → remove_word d i w st = Ok st1 →
  ∃ k, current_topic st d i = Ok k
    ∧ (∀ r c, entry (doc_topic_counts st1) r c
              = (entry (doc_topic_counts st) r c
                 - ind (r = d ∧ c = k))%Z)
    ∧ (∀ r c, entry (term_topic_count st1) r c
              = (entry (term_topic_count st) r c
                 - ind (r = token_row st w ∧ c = k))%Z).
Proof.
  intros Hwf Hrm. apply remove_word_inv in Hrm
    as (topics & k & r & dtc & ttc & Ht & Hk & Hr & Hd & Htt & ->).
  exists k. split.
  { unfold current_topic. rewrite (ix_lookup _ _ _ Ht). simpl.
    by rewrite Hk. }
  unfold token_row. rewrite Hr. simpl. split; intros r' c'; unfold ind.
  - rewrite (loc_iadd_entry _ _ _ _ _ _ _ Hd). repeat case_decide; lia.
  - rewrite (loc_iadd_entry _ _ _ _ _ _ _ Htt). repeat case_decide; lia.
Qed.


(** C2.  In a reachable state every row of [doc_topic_counts] sums to the
    length of its document.  For an occurrence of document [d] the remove
    half lowers the sum of row [d] by one and leaves the other rows, the
    add-back half raises it by one, and the state after the resample
    satisfies the invariant again. *)
Theorem row_sum_invariant st :
  reachable st →
  row_inv st
  ∧ ∀ d i doc w g,
      text st !! d = Some doc → doc !! i = Some w →
      ∃ st1 st2 g' k,
        remove_word d i w st = Ok st1
        ∧ (∀ d', row_sum (doc_topic_counts st1) d'
                 = (row_sum (doc_topic_counts st) d' - ind (d' = d))%Z)
        ∧ add_back d i w k st1 = Ok st2
        ∧ (∀ d', row_sum (doc_topic_counts st2) d'
                 = (row_sum (doc_topic_counts st1) d' + ind (d' = d))%Z)
        ∧ resample_one d i w (st, g) = Ok (st2, g')
        ∧ row_inv st2.
Proof.
  intros Hreach.
  destruct (reachable_inv _ Hreach) as (Hwf & Hrow & _).
  split; [done|]. intros d i doc w g Hd Hi.
  destruct (resample_one_ok d i w doc (st, g) Hwf Hd Hi) as [[st2 g'] Hrs].
  pose proof Hrs as Hrs'.
  apply resample_one_inv in Hrs' as (st1 & ws & Hrm & _ & _ & _ & Hadd).
  simpl in Hrm, Hadd.
  exists st1, st2, g', (multinomial_hot (normalize ws) g).1.
  pose proof (remove_word_sums _ _ _ _ _ Hrm)
    as (_ & _ & _ & _ & Hr1 & _).
  pose proof (add_back_sums _ _ _ _ _ _ Hadd) as (Hr2 & _).
  repeat split; try done.
  apply (reachable_inv st2). eapply reach_resample; eauto.
Qed.

(** C3.  In a reachable state (after construction and after any number of
    resamples) the entries of [doc_topic_counts] and the entries of
    [term_topic_count] both add up to the number of word occurrences of
    the corpus, and a resample of any occurrence keeps both totals. *)
Theorem corpus_total_invariant st :
  reachable st →
  mat_sum (doc_topic_counts st) = mat_sum (term_topic_count st)
  ∧ mat_sum (doc_topic_counts st) = total_words (text st)
  ∧ ∀ d i doc w g,
      text st !! d = Some doc → doc !! i = Some w →
      ∃ s', resample_one d i w (st, g) = Ok s'
        ∧ text s'.1 = text st
        ∧ mat_sum (doc_topic_counts s'.1) = total_words (text st)
        ∧ mat_sum (term_topic_count s'.1) = total_words (text st).
Proof.
  intros Hreach.
  destruct (reachable_inv _ Hreach) as (Hwf & _ & _ & Ht1 & Ht2).
  split; [congruence|]. split; [done|]. intros d i doc w g Hd Hi.
  destruct (resample_one_ok d i w doc (st, g) Hwf Hd Hi) as [s' Hrs].
  exists s'. split; [done|].
  pose proof (resample_one_sums _ _ _ _ _ Hrs) as (_ & _ & Hm & Hn).
  pose proof (resample_one_frame _ _ _ _ _ Hrs) as (_ & _ & _ & Htxt & _).
  simpl in *. split; [done|]. split; congruence.
Qed.

(** C4.  In a reachable state, for each topic [j] in [[0, K)], column [j]
    of [doc_topic_counts] and column [j] of [term_topic_count] have the
    same sum; the equality also holds right after the remove half of a
    resample and after the add-back half for any topic, so the
    denominators [doc_topic_counts.sum() + V*beta] used by the code are
    the column sums of [term_topic_count] plus [V*beta]. *)
Theorem column_sums_agree st :
  reachable st →
  col_inv st
  ∧ ∀ d i doc w k,
      text st !! d = Some doc → doc !! i = Some w →
      k < Z.to_nat (K st) →
      ∃ st1 st2,
        remove_word d i w st = Ok st1
        ∧ col_inv st1
        ∧ (λ j, fadd (of_Z (col_sum (doc_topic_counts st1) j))
                     (fmul (of_Z (V st1)) (beta st1)))
            <$> range (K st1)
          = (λ j, fadd (of_Z (col_sum (term_topic_count st1) j))
                       (fmul (of_Z (V st1)) (beta st1)))
              <$> range (K st1)
        ∧ add_back d i w k st1 = Ok st2
        ∧ col_inv st2.
Proof.
  intros Hreach.
  destruct (reachable_inv _ Hreach) as (Hwf & _ & Hcol & _).
  split; [done|]. intros d i doc w k Hd Hi Hk.
  destruct (remove_word_ok _ _ _ _ _ Hwf Hd Hi) as [st1 Hrm].
  pose proof (wf_remove_word _ _ _ _ _ Hwf Hrm) as Hwf1.
  pose proof (col_inv_remove_word _ _ _ _ _ Hcol Hrm) as Hcol1.
  pose proof (remove_word_frame _ _ _ _ _ Hrm) as (_ & _ & HK & Htxt & _).
  destruct (add_back_ok st1 d i doc w k Hwf1) as [st2 Hadd];
    [by rewrite Htxt|done|by rewrite HK|].
  exists st1, st2. repeat split; try done.
  - apply list_fmap_ext. intros n j Hj. apply lookup_seq in Hj as [-> Hj].
    simpl in *. by rewrite Hcol1.
  - by eapply col_inv_add_back.
Qed.

End Main.

Section Driver.
Context {F G : Type} {FO : Float F} {RS : RandomState F G}.
Implicit Types st : Gibbs F.
Implicit Types s : Gibbs F * G.

Lemma report_frame step s s1 :
  wf s.1 → report step s = Ok s1 → wf s1.1 ∧ text s1.1 = text s.1.
Proof.
  intros Hwf H. unfold report in H. case_decide.
  - apply bind_Ok_inv in H as (st & Hp & H). injection H as <-. simpl.
    split; [by eapply wf_perplexity|].
    by apply perplexity_inv in Hp as [p ->].
  - by injection H as <-.
Qed.

Lemma iterate_step_frame step s s' :
  wf s.1 → iterate_step step s = Ok s' →
  wf s'.1 ∧ text s'.1 = text s.1.
Proof.
  intros Hwf H. unfold iterate_step in H.
  apply bind_Ok_inv in H as (s1 & Hs1 & H).
  apply report_frame in Hs1 as [Hwf1 Htxt1]; [|done].
  apply sweep_frame in H as (Hwf' & Htxt' & _); [|done].
  split; [done|congruence].
Qed.

Lemma iterate_step_flat step s :
  wf s.1 → iterate_step step s = flat_step (text s.1) step s.
Proof.
  intros Hwf. unfold iterate_step, flat_step.
  destruct (report step s) as [s1|e] eqn:Hs1; cbn [bind]; [|reflexivity].
  apply report_frame in Hs1 as [Hwf1 Htxt1]; [|done].
  rewrite <- Htxt1. by apply sweep_flat.
Qed.

(** C5.  On a reachable state [iterate n] returns, and it runs one round
    per element of [range n], that is [n] rounds for [n >= 0]; each round
    is the optional perplexity report followed by one [resample_one] per
    element of [positions], in the order of that list.  [positions] lists
    every (document, position) pair of the corpus once, documents in
    order and positions in order within a document. *)
Theorem iterate_visits st g n :
  reachable st →
  (∃ s', iterate n (st, g) = Ok s')
  ∧ iterate n (st, g)
    = for_each (flat_step (text st)) (range n) (st, g)
  ∧ length (range n) = Z.to_nat n
  ∧ (∀ d i w, (d, i, w) ∈ positions (text st)
              ↔ ∃ doc, text st !! d = Some doc ∧ doc !! i = Some w)
  ∧ NoDup (positions (text st))
  ∧ StronglySorted position_lt (positions (text st)).
Proof.
  intros Hreach. pose proof (reachable_wf _ Hreach) as Hwf.
  split; [|split; [|split; [|split; [|split]]]].
  - destruct (iterate_ok n (st, g) Hreach) as (s' & Hs' & _). eauto.
  - unfold iterate.
    apply (for_each_ext_inv (λ s, wf s.1 ∧ text s.1 = text st));
      [done| |].
    + intros step s [Hwfs Htxt]. rewrite <- Htxt.
      by apply iterate_step_flat.
    + intros step s s' [Hwfs Htxt] Hstep.
      apply iterate_step_frame in Hstep as [Hwf' Htxt']; [|done].
      split; [done|congruence].
  - unfold range. by rewrite length_seq.
  - apply positions_elem_of.
  - apply positions_NoDup.
  - apply positions_sorted.
Qed.

(** C6.  On a reachable state the evaluator succeeds and returns the state
    with one score appended to the trace, [exp(-L/N)] as specified, every
    other field unchanged; a resample leaves the trace as it is, and the
    trace before a call of [iterate] is a prefix of the trace after it. *)
Theorem perplexity_appends st :
  reachable st →
  (∃ st', perplexity st = Ok st'
     ∧ perplexity_scores st' = perplexity_scores st ++ [perplexity_spec st]
     ∧ doc_topic st' = doc_topic st
     ∧ doc_topic_counts st' = doc_topic_counts st
     ∧ term_topic_count st' = term_topic_count st)
  ∧ (∀ d i w g s', resample_one d i w (st, g) = Ok s' →
       perplexity_scores s'.1 = perplexity_scores st)
  ∧ (∀ n g s', iterate n (st, g) = Ok s' →
       perplexity_scores st `prefix_of` perplexity_scores s'.1).
Proof.
  intros Hreach. pose proof (reachable_wf _ Hreach) as Hwf.
  split; [|split].
  - eexists. split; [by apply perplexity_spec_ok|]. by repeat split.
  - intros d i w g s' Hrs.
    by apply resample_one_frame in Hrs as (_&_&_&_&_&_&Hsc).
  - intros n g s' Hrun. by apply (iterate_trace n (st, g) s').
Qed.

(** C7.  Construction raises when [K <= 0] and when the corpus has no
    token; for [K >= 1] and a vocabulary of at least one token it returns
    a state whose assignment store has one topic in [[0, K)] per
    occurrence and whose count tables are the [D x K] and [V x K] tallies
    of these topics. *)
Theorem init_errors (txt : list (list string)) (k : Z) (g : G) :
  ((k ≤ 0)%Z ∨ remove_dups (concat txt) = [] →
     ∃ e, __init__ (F:=F) txt k g = Raise e)
  ∧ ((1 ≤ k)%Z → 1 ≤ length (remove_dups (concat txt)) →
     ∃ st g', __init__ txt k g = Ok (st, g')
       ∧ K st = k ∧ text st = txt
       ∧ V st = Z.of_nat (length (remove_dups (concat txt)))
       ∧ Forall2 (doc_topic_shape k) txt (doc_topic st)
       ∧ table_shape (doc_topic_counts st) (length txt) (Z.to_nat k)
       ∧ table_shape (term_topic_count st) (Z.to_nat (V st)) (Z.to_nat k)
       ∧ row_inv st ∧ col_inv st ∧ total_inv st).
Proof.
  split.
  - intros Hbad. destruct (__init__ txt k g) as [[st g']|e] eqn:Hinit;
      [|eauto].
    apply init_inv in Hinit as (HK & HV & _).
    destruct Hbad as [Hk|Hv]; [lia|done].
  - intros Hk Hv.
    destruct (init_ok txt k g) as (st & g' & Hinit); [lia| |].
    { intros Hnil. rewrite Hnil in Hv. simpl in Hv. lia. }
    exists st, g'. split; [done|].
    pose proof (init_spec _ _ _ _ _ Hinit) as (Hwf & Hrow & Hcol & Htot).
    pose proof (init_frame _ _ _ _ _ Hinit) as (Htxt & HK & Htok & HV & _).
    pose proof (wf_doc_topic _ Hwf) as Hdt.
    pose proof (wf_doc_topic_counts _ Hwf) as Hdtc.
    pose proof (wf_term_topic_count _ Hwf) as Httc.
    rewrite Htxt, HK in *. rewrite HV, Nat2Z.id, <- Htok.
    repeat (split; [done|]). done.
Qed.

(** C10.  [iterate 0] returns the state and the generator it was given:
    no resample, no perplexity evaluation. *)
Theorem iterate_zero s : iterate 0 s = Ok s.
Proof. reflexivity. Qed.

End Driver.

(** ** Runs driven by generators that yield the same draws *)

Section Seeds.
Context {F G1 G2 : Type} {FO : Float F}.
Context {RS1 : RandomState F G1} {RS2 : RandomState F G2}.
Variable R : G1 → G2 → Prop.
Hypothesis HR : same_draws (F:=F) R.

Lemma for_each_same {A : Type}
    (b1 : A → Gibbs F * G1 → result (Gibbs F * G1))
    (b2 : A → Gibbs F * G2 → result (Gibbs F * G2)) (xs : list A) s1 s2 :
  (∀ x t1 t2, t1.1 = t2.1 → R t1.2 t2.2 → same_result R (b1 x t1) (b2 x t2)) →
  s1.1 = s2.1 → R s1.2 s2.2 →
  same_result R (for_each b1 xs s1) (for_each b2 xs s2).
Proof.
  intros Hb. revert s1 s2. induction xs as [|x xs IH]; intros s1 s2 Hs Hg.
  - by split.
  - simpl. pose proof (Hb x s1 s2 Hs Hg) as Hx.
    destruct (b1 x s1) as [t1|e1], (b2 x s2) as [t2|e2]; simpl in *;
      try done.
    destruct Hx as [Ht Hg']. by apply IH.
Qed.

Lemma draw_doc_topic_same k txt g1 g2 :
  R g1 g2 →
  match draw_doc_topic k txt g1, draw_doc_topic k txt g2 with
  | Ok p1, Ok p2 => p1.1 = p2.1 ∧ R p1.2 p2.2
  | Raise e1, Raise e2 => e1 = e2
  | _, _ => False
  end.
Proof.
  revert g1 g2. induction txt as [|doc txt IH]; intros g1 g2 Hg; simpl.
  - by split.
  - unfold np_random_randint. case_decide as Hk; simpl; [|done].
    destruct (proj1 HR k (length doc) g1 g2 Hk Hg) as [Hdraw Hg'].
    destruct (randint k (length doc) g1) as [t1 h1].
    destruct (randint k (length doc) g2) as [t2 h2].
    simpl in *. subst t2. specialize (IH h1 h2 Hg').
    destruct (draw_doc_topic k txt h1) as [[r1 h1']|e1],
             (draw_doc_topic k txt h2) as [[r2 h2']|e2]; simpl in *;
      try done.
    destruct IH as [-> Hh]. by split.
Qed.

Lemma init_same txt k g1 g2 :
  R g1 g2 → same_result R (__init__ txt k g1) (__init__ txt k g2).
Proof.
  intros Hg. unfold __init__.
  pose proof (draw_doc_topic_same k txt g1 g2 Hg) as Hdraw.
  destruct (draw_doc_topic k txt g1) as [[dt1 h1]|e1],
           (draw_doc_topic k txt g2) as [[dt2 h2]|e2]; simpl in *;
    try done.
  destruct Hdraw as [-> Hh].
  destruct (np_zeros _ k) as [zeros|e]; simpl; [|done].
  destruct (tally_terms _ txt dt2 zeros) as [ttc|e]; simpl; [|done].
  destruct (py_div 50 k) as [a|e]; simpl; [|done].
  destruct (py_div 200 _) as [b|e]; simpl; [|done].
  by split.
Qed.

Lemma resample_one_same d i w st g1 g2 :
  R g1 g2 →
  same_result R (resample_one d i w (st, g1)) (resample_one d i w (st, g2)).
Proof.
  intros Hg. unfold resample_one. simpl.
  destruct (remove_word d i w st) as [st1|e]; simpl; [|done].
  destruct (conditional_weights st1 d w) as [ws|e]; simpl; [|done].
  unfold draw_topic. destruct (normalize ws) as [|x l] eqn:Hn; simpl;
    [done|].
  destruct (proj2 HR (x :: l) g1 g2 ltac:(done) Hg) as [Hdraw Hg'].
  destruct (multinomial_hot (x :: l) g1) as [k1 h1].
  destruct (multinomial_hot (x :: l) g2) as [k2 h2].
  simpl in *. subst k2.
  destruct (add_back d i w k1 st1) as [st2|e]; simpl; [|done].
  by split.
Qed.

Lemma sweep_same (s1 : Gibbs F * G1) (s2 : Gibbs F * G2) :
  s1.1 = s2.1 → R s1.2 s2.2 → same_result R (sweep s1) (sweep s2).
Proof.
  intros Hs Hg. unfold sweep. rewrite Hs.
  apply for_each_same; [|done..].
  intros [d doc] t1 t2 Ht Hgt. unfold sweep_doc. rewrite Ht. cbn [fst snd].
  destruct (ix (doc_topic t2.1) d) as [topics|e]; simpl; [|done].
  apply for_each_same; [|done..].
  intros [j w] [u1 h1] [u2 h2] Hu Hh. simpl in *. subst u2.
  by apply resample_one_same.
Qed.

Lemma iterate_same n (s1 : Gibbs F * G1) (s2 : Gibbs F * G2) :
  s1.1 = s2.1 → R s1.2 s2.2 → same_result R (iterate n s1) (iterate n s2).
Proof.
  intros Hs Hg. unfold iterate. apply for_each_same; [|done..].
  intros step [t1 h1] [t2 h2] Ht Hh. simpl in *. subst t2.
  unfold iterate_step, report. case_decide; simpl.
  - destruct (perplexity t1) as [t|e]; simpl; [|done].
    by apply sweep_same.
  - by apply sweep_same.
Qed.

Lemma run_same txt k n g1 g2 :
  R g1 g2 → same_result R (run txt k n g1) (run txt k n g2).
Proof.
  intros Hg. unfold run. pose proof (init_same txt k g1 g2 Hg) as Hinit.
  destruct (__init__ txt k g1) as [s1|e1], (__init__ txt k g2) as [s2|e2];
    simpl in *; try done.
  destruct Hinit as [Hs Hg']. by apply iterate_same.
Qed.

End Seeds.

(** C8.  The class takes no seed of its own; it draws from the generator it
    finds.  Two independent runs on the same corpus with the same [K] and
    [n], each with a generator of its own, the two seeded alike (from their
    starting states on, the two generators yield the same draws): the
    construction draws the same topics, every resample of the same state
    draws the same topic, and the runs end alike, with the same exception
    or with the same assignments, tables and perplexity trace. *)
Theorem seeded_runs_agree {F G1 G2 : Type} {FO : Float F}
    {RS1 : RandomState F G1} {RS2 : RandomState F G2}
    (R : G1 → G2 → Prop) (txt : list (list string)) (k n : Z)
    (g1 : G1) (g2 : G2) :
  same_draws (F:=F) R → R g1 g2 →
  same_result R (__init__ txt k g1) (__init__ txt k g2)
  ∧ (∀ (st : Gibbs F) d i w h1 h2, R h1 h2 →
       same_result R (resample_one d i w (st, h1))
                     (resample_one d i w (st, h2)))
  ∧ same_result R (run txt k n g1) (run txt k n g2)
  ∧ outcome (run txt k n g1) = outcome (run txt k n g2).
Proof.
  intros HR Hg. split; [by apply init_same|].
  split; [intros; by apply resample_one_same|].
  pose proof (run_same R HR txt k n g1 g2 Hg) as Hrun.
  split; [done|].
  destruct (run txt k n g1) as [s1|e1], (run txt k n g2) as [s2|e2];
    simpl in *; try done.
  destruct Hrun as [-> _]. done.
Qed.

Section Report.
Context {F G : Type} {FO : Float F} {RS : RandomState F G}.
Implicit Types st : Gibbs F.

Lemma head_n_take {A : Type} (n : Z) (l : list A) :
  (0 ≤ n)%Z → head_n n l = take (Z.to_nat n) l.
Proof. intros Hn. unfold head_n. by rewrite decide_True. Qed.

(** C9.  On a reachable state, for a topic in [[0, K)] and [n >= 1], the
    words reported for the topic are [min n V] distinct vocabulary terms,
    and no term left out has a larger [term_topic_count] for the topic
    than a term reported; [top_n_words n] reports these words in the block
    of the topic and returns the state it was given. *)
Theorem top_n_words_highest st topic n :
  reachable st → topic < Z.to_nat (K st) → (1 ≤ n)%Z →
  ∃ ws,
    top_n st topic n = Ok ws
    ∧ length ws = Nat.min (Z.to_nat n) (Z.to_nat (V st))
    ∧ NoDup ws
    ∧ (∀ w, w ∈ ws → w ∈ tokens st)
    ∧ (∀ w w', w ∈ ws → w' ∈ tokens st → w' ∉ ws →
         (topic_count st topic w' ≤ topic_count st topic w)%Z)
    ∧ ∃ out, top_n_words n st = Ok (out, st)
             ∧ out !! topic = Some (n, topic, ws).
Proof.
  intros Hreach Ht Hn. pose proof (reachable_wf _ Hreach) as Hwf.
  exists ((head_n n (ranked st topic)).*2).
  split; [by apply top_n_ok|].
  rewrite head_n_take by lia.
  pose proof (ranked_words st topic Hwf) as Hperm.
  pose proof (sort_desc_sorted
                (zip ((λ row, nth topic row 0%Z) <$> term_topic_count st)
                     (tokens st))) as Hsorted.
  fold (ranked st topic) in Hsorted.
  set (L := ranked st topic) in *.
  assert (NoDup (L.*2)) as Hnd
    by (rewrite Hperm; apply (wf_tokens_nodup _ Hwf)).
  split; [|split; [|split; [|split]]].
  - rewrite length_fmap, length_take.
    rewrite <- (length_fmap snd L), Hperm, (wf_V _ Hwf), Nat2Z.id.
    reflexivity.
  - rewrite fmap_take. eapply sublist_NoDup; [done|apply sublist_take].
  - intros w Hw. rewrite fmap_take in Hw.
    apply subseteq_take in Hw. by rewrite Hperm in Hw.
  - intros w w' Hw Hw' Hout.
    apply list_elem_of_fmap in Hw as ([c w0] & -> & Hcw).
    rewrite <- Hperm in Hw'.
    apply list_elem_of_fmap in Hw' as ([c' w0'] & -> & Hcw').
    rewrite <- (take_drop (Z.to_nat n) L) in Hcw', Hsorted.
    apply elem_of_app in Hcw' as [Hin|Hin].
    { exfalso. apply Hout. by apply (list_elem_of_fmap_2 snd _ (c', w0')). }
    pose proof (StronglySorted_app_1_elem_of _ _ _ _ _ Hsorted Hcw Hin)
      as Hge.
    apply subseteq_take in Hcw. apply subseteq_drop in Hin.
    apply (ranked_elem_of st topic) in Hcw as [_ ->]; [|done].
    apply (ranked_elem_of st topic) in Hin as [_ ->]; [|done].
    exact Hge.
  - eexists. split; [by apply top_n_words_ok|].
    unfold range. rewrite list_lookup_fmap, lookup_seq_lt by done.
    simpl. by rewrite head_n_take by lia.
Qed.

End Report.

(** ** The results on the two-document corpus *)

Lemma init_A : __init__ corpus_A 2 tape_A = Ok (state_A, [1; 0; 0; 0]).
Proof. vm_compute. reflexivity. Qed.


Lemma row_sum_invariant_witness :
  row_sum (doc_topic_counts state_A) 0 = 2%Z
  ∧ row_sum (doc_topic_counts state_A) 1 = 2%Z.
Proof.
  destruct (row_sum_invariant (G:=list nat) state_A) as [Hrow _].
  - apply (reach_init corpus_A 2 tape_A state_A [1; 0; 0; 0]).
    vm_compute. reflexivity.
  - split; [apply (Hrow 0 ["a"; "b"])|apply (Hrow 1 ["b"; "c"])];
      reflexivity.
Defined.

Lemma corpus_total_invariant_witness :
  mat_sum (doc_topic_counts state_A) = mat_sum (term_topic_count state_A)
  ∧ mat_sum (doc_topic_counts state_A) = 4%Z.
Proof.
  destruct (corpus_total_invariant (G:=list nat) state_A) as (H1 & H2 & _).
  - apply (reach_init corpus_A 2 tape_A state_A [1; 0; 0; 0]).
    vm_compute. reflexivity.
  - split; [exact H1|exact H2].
Defined.

Lemma column_sums_agree_witness :
  col_sum (doc_topic_counts state_A) 1 = col_sum (term_topic_count state_A) 1.
Proof.
  destruct (column_sums_agree (G:=list nat) state_A) as [Hcol _].
  - apply (reach_init corpus_A 2 tape_A state_A [1; 0; 0; 0]).
    vm_compute. reflexivity.
  - apply (Hcol 1). vm_compute. lia.
Defined.

Lemma iterate_visits_witness :
  iterate 1 (state_A, [1; 0; 0; 0])
  = for_each (flat_step corpus_A) (range 1) (state_A, [1; 0; 0; 0])
  ∧ NoDup (positions corpus_A).
Proof.
  destruct (iterate_visits state_A [1; 0; 0; 0] 1)
    as (_ & Heq & _ & _ & Hnd & _).
  - apply (reach_init corpus_A 2 tape_A state_A [1; 0; 0; 0]).
    vm_compute. reflexivity.
  - split; [exact Heq|exact Hnd].
Defined.

Lemma perplexity_appends_witness :
  ∃ st', perplexity state_A = Ok st'
    ∧ perplexity_scores st' = [perplexity_spec state_A].
Proof.
  destruct (perplexity_appends (G:=list nat) state_A)
    as ((st' & Hp & Hsc & _) & _).
  - apply (reach_init corpus_A 2 tape_A state_A [1; 0; 0; 0]).
    vm_compute. reflexivity.
  - exists st'. split; [exact Hp|exact Hsc].
Defined.

Lemma init_errors_witness :
  (∃ e, __init__ (F:=fexpr) corpus_A 0 tape_A = Raise e)
  ∧ (∃ e, __init__ (F:=fexpr) [[]; []] 2 tape_A = Raise e)
  ∧ (∃ st g', __init__ corpus_A 2 tape_A = Ok (st, g')
       ∧ table_shape (doc_topic_counts st) 2 2
       ∧ table_shape (term_topic_count st) 3 2).
Proof.
  split; [|split].
  - apply (proj1 (init_errors corpus_A 0 tape_A)). left. lia.
  - apply (proj1 (init_errors [[]; []] 2 tape_A)). right. reflexivity.
  - destruct (proj2 (init_errors (F:=fexpr) corpus_A 2 tape_A))
      as (st & g' & Hinit & _ & _ & HV & _ & Hd & Ht & _).
    + lia.
    + vm_compute. lia.
    + exists st, g'. split; [exact Hinit|]. split; [exact Hd|].
      rewrite HV in Ht. exact Ht.
Defined.

Lemma seeded_runs_agree_witness :
  outcome (run (F:=fexpr) corpus_A 2 26 tape_A)
  = outcome (run (F:=fexpr) corpus_A 2 26 (tape_A, 0)).
Proof.
  apply (seeded_runs_agree (λ (g : list nat) (h : list nat * nat), h.1 = g)
           corpus_A 2 26 tape_A (tape_A, 0)).
  - split.
    + intros high size g [h c] _ Hg. simpl in Hg. subst h.
      split; reflexivity.
    + intros p g [h c] _ Hg. simpl in Hg. subst h. split; reflexivity.
  - reflexivity.
Defined.

Lemma top_n_words_highest_witness :
  ∃ ws, top_n state_A 1 1 = Ok ws ∧ length ws = 1 ∧ NoDup ws.
Proof.
  destruct (top_n_words_highest (G:=list nat) state_A 1 1)
    as (ws & Htop & Hlen & Hnd & _).
  - apply (reach_init corpus_A 2 tape_A state_A [1; 0; 0; 0]).
    vm_compute. reflexivity.
  - vm_compute. lia.
  - lia.
  - exists ws. split; [exact Htop|]. split; [exact Hlen|exact Hnd].
Defined.

(** Scenario A of the specification: the rows of [doc_topic_counts] sum to
    2 and [term_topic_count] sums to 4, whatever the draws. *)
Example scenario_A (g : list nat) :
  ∃ st g', __init__ (F:=fexpr) corpus_A 2 g = Ok (st, g')
    ∧ row_sum (doc_topic_counts st) 0 = 2%Z
    ∧ row_sum (doc_topic_counts st) 1 = 2%Z
    ∧ mat_sum (term_topic_count st) = 4%Z.
Proof.
  destruct (init_ok (F:=fexpr) corpus_A 2 g) as (st & g' & Hinit);
    [lia|by vm_compute|].
  exists st, g'. split; [done|].
  pose proof (init_spec _ _ _ _ _ Hinit) as (_ & Hrow & _ & _ & Htot).
  pose proof (init_frame _ _ _ _ _ Hinit) as (Htxt & _).
  rewrite Htxt in Htot. split; [|split; [|exact Htot]].
  - apply (Hrow 0 ["a"; "b"]). by rewrite Htxt.
  - apply (Hrow 1 ["b"; "c"]). by rewrite Htxt.
Qed.


(** * Further properties of the class *)

(** ** The count tables are the tallies of the assignments *)

Lemma length_filter_insert {A : Type} (P : A → Prop)
    `{∀ x, Decision (P x)} (l : list A) (i : nat) (x y : A) :
  l !! i = Some x →
  Z.of_nat (length (filter P (<[i := y]> l)))
  = (Z.of_nat (length (filter P l)) - ind (P x) + ind (P y))%Z.
Proof.
  revert i. induction l as [|z l IH]; intros [|i] Hi; simpl in *; try done.
  - injection Hi as ->. rewrite !filter_cons. unfold ind.
    repeat case_decide; simpl; lia.
  - rewrite !filter_cons. specialize (IH i Hi).
    case_decide; simpl; lia.
Qed.

Lemma entry_zeros (rows cols r c : nat) :
  entry (replicate rows (replicate cols 0%Z)) r c = 0%Z.
Proof.
  unfold entry. rewrite (nth_lookup _ r).
  destruct (replicate rows _ !! r) as [row|] eqn:Hrow; simpl.
  - apply lookup_replicate in Hrow as [-> _]. rewrite nth_lookup.
    destruct (replicate cols 0%Z !! c) as [x|] eqn:Hx; simpl; [|done].
    by apply lookup_replicate in Hx as [-> _].
  - by destruct c.
Qed.

Lemma get_loc_eq_iff (index : list string) (r r0 : nat) (w w0 : string) :
  NoDup index → index !! r = Some w → get_loc index w0 = Ok r0 →
  r = r0 ↔ w0 = w.
Proof.
  intros Hnd Hr Hr0. apply get_loc_lookup in Hr0. split.
  - intros ->. congruence.
  - intros ->. by eapply NoDup_lookup.
Qed.

Section Tallies.
Context {F G : Type} {FO : Float F} {RS : RandomState F G}.
Implicit Types st : Gibbs F.

Lemma tally_doc_entries tokens (ps : list (nat * string)) m m' :
  NoDup tokens →
  for_each (λ '(topic, word) m, term_loc_iadd tokens m word topic 1%Z) ps m
  = Ok m' →
  ∀ r w j, tokens !! r = Some w →
    entry m' r j
    = (entry m r j
       + Z.of_nat (length (filter (λ p, p.1 = j ∧ p.2 = w) ps)))%Z.
Proof.
  intros Hnd. revert m.
  induction ps as [|[topic word] ps IH]; intros m Hrun r w j Hr;
    simpl in Hrun.
  - injection Hrun as <-. simpl. lia.
  - apply bind_Ok_inv in Hrun as (m1 & Hstep & Hrun).
    rewrite (IH _ Hrun r w j Hr). unfold term_loc_iadd in Hstep.
    apply bind_Ok_inv in Hstep as (r0 & Hr0 & Hstep).
    rewrite (loc_iadd_entry _ _ _ _ _ _ _ Hstep), filter_cons.
    assert ((r = r0 ∧ j = topic) ↔ (topic = j ∧ word = w)) as Hiff.
    { rewrite (get_loc_eq_iff _ _ _ _ _ Hnd Hr Hr0).
      split; intros [-> ->]; done. }
    simpl. repeat case_decide; simpl; try lia; tauto.
Qed.

Lemma tally_terms_entries tokens txt dt m m' :
  NoDup tokens → length dt = length txt →
  tally_terms tokens txt dt m = Ok m' →
  ∀ r w j, tokens !! r = Some w →
    entry m' r j = (entry m r j + term_tally txt dt w j)%Z.
Proof.
  intros Hnd Hlen Hrun. unfold tally_terms, range in Hrun.
  rewrite Nat2Z.id in Hrun.
  pose proof (for_each_range_zip
             (λ topics doc m,
                for_each (λ '(topic, word) m,
                            term_loc_iadd tokens m word topic 1%Z)
                         (zip topics doc) m) [] dt [] txt m eq_refl Hlen)
    as Hzip.
  simpl in Hzip. rewrite Hzip in Hrun. clear Hzip Hlen.
  unfold term_tally. revert m Hrun.
  induction (zip dt txt) as [|[topics doc] ds IH]; intros m Hrun r w j Hr;
    simpl in Hrun.
  - injection Hrun as <-. simpl. lia.
  - apply bind_Ok_inv in Hrun as (m1 & Hdoc & Hrun).
    rewrite (IH _ Hrun r w j Hr).
    rewrite (tally_doc_entries _ _ _ _ Hnd Hdoc r w j Hr).
    rewrite fmap_cons. cbn [sumZ]. unfold word_tally at 2. simpl. lia.
Qed.

Lemma init_tally txt k g st (g' : G) :
  __init__ txt k g = Ok (st, g') → tally_inv st.
Proof.
  intros Hinit.
  apply init_inv in Hinit
    as (HK & HV & dt & ttc & a & b & Hdraw & Htally & ->).
  apply draw_doc_topic_inv in Hdraw as [Hshape _]. split; simpl.
  - intros d topics j Hd Hj. unfold entry.
    rewrite (nth_lookup _ d), list_lookup_fmap, Hd. simpl.
    by apply Counter_row_nth.
  - intros r w j Hr Hj.
    rewrite (tally_terms_entries _ _ _ _ _ (NoDup_remove_dups _)
               (eq_sym (Forall2_length _ _ _ Hshape)) Htally r w j Hr).
    rewrite entry_zeros. lia.
Qed.

End Tallies.

Lemma zip_insert_l {A B : Type} (l : list A) (k : list B) (i : nat)
    (x : A) (y : B) :
  k !! i = Some y → zip (<[i := x]> l) k = <[i := (x, y)]> (zip l k).
Proof.
  intros Hy. rewrite (insert_zip_with pair l k i x y).
  by rewrite (list_insert_id k i y Hy).
Qed.

Lemma length_filter_pos {A : Type} (P : A → Prop) `{∀ x, Decision (P x)}
    (l : list A) (i : nat) (x : A) :
  l !! i = Some x → P x → (1 ≤ Z.of_nat (length (filter P l)))%Z.
Proof.
  intros Hi Hx.
  assert (x ∈ filter P l) as Hin.
  { apply list_elem_of_filter. split; [done|].
    by eapply list_elem_of_lookup_2. }
  destruct (filter P l); [by apply elem_of_nil in Hin|]. simpl. lia.
Qed.

Lemma sumZ_lookup_le (l : list Z) (i : nat) (x : Z) :
  Forall (λ y, (0 ≤ y)%Z) l → l !! i = Some x → (x ≤ sumZ l)%Z.
Proof.
  intros Hl. revert i. induction Hl as [|y l Hy Hl IH]; intros [|i] Hi;
    simpl in *; try done.
  - injection Hi as ->.
    assert (0 ≤ sumZ l)%Z; [|lia].
    clear IH. induction Hl; simpl; lia.
  - specialize (IH i Hi). lia.
Qed.

Lemma entry_out_of_shape (m : list (list Z)) (rows cols r c : nat) :
  table_shape m rows cols → rows ≤ r ∨ cols ≤ c → entry m r c = 0%Z.
Proof.
  intros [Hlen Hrows] Hout. unfold entry. rewrite (nth_lookup _ r).
  destruct (m !! r) as [row|] eqn:Hrow; simpl; [|by destruct c].
  pose proof (Forall_lookup_1 _ _ _ _ Hrows Hrow) as Hrl. simpl in Hrl.
  apply lookup_lt_Some in Hrow.
  rewrite nth_lookup, (proj2 (lookup_ge_None row c)); [done|lia].
Qed.

(** Case analysis on the indicators of a goal about counts. *)
Ltac ind_cases :=
  unfold ind; repeat case_decide;
  first [lia | exfalso; intuition (subst; eauto; congruence)].

Section Moves.
Context {F G : Type} {FO : Float F} {RS : RandomState F G}.
Implicit Types st : Gibbs F.
Implicit Types s : Gibbs F * G.

Lemma add_back_entries st st2 d i w k :
  add_back d i w k st = Ok st2 →
  ∃ topics,
    doc_topic st !! d = Some topics
    ∧ doc_topic st2 = <[d := <[i := k]> topics]> (doc_topic st)
    ∧ (∀ r c, entry (doc_topic_counts st2) r c
              = (entry (doc_topic_counts st) r c + ind (r = d ∧ c = k))%Z)
    ∧ (∀ r c, entry (term_topic_count st2) r c
              = (entry (term_topic_count st) r c
                 + ind (r = token_row st w ∧ c = k))%Z).
Proof.
  intros Hadd. apply add_back_inv in Hadd
    as (topics & k0 & r & dtc & ttc & Ht & Hk & Hr & Hd & Htt & ->).
  exists topics. split; [done|]. split; [done|].
  unfold token_row. rewrite Hr. simpl. split; intros r' c'; unfold ind.
  - rewrite (loc_iadd_entry _ _ _ _ _ _ _ Hd). repeat case_decide; lia.
  - rewrite (loc_iadd_entry _ _ _ _ _ _ _ Htt). repeat case_decide; lia.
Qed.

(** What one resample does to the store and to the tables. *)
Lemma resample_one_effect d i w s s' :
  wf s.1 → resample_one d i w s = Ok s' →
  ∃ topics k_old k_new,
    doc_topic s.1 !! d = Some topics ∧ topics !! i = Some k_old
    ∧ k_new < Z.to_nat (K s.1)
    ∧ doc_topic s'.1 = <[d := <[i := k_new]> topics]> (doc_topic s.1)
    ∧ (∀ r c, entry (doc_topic_counts s'.1) r c
              = (entry (doc_topic_counts s.1) r c
                 - ind (r = d ∧ c = k_old) + ind (r = d ∧ c = k_new))%Z)
    ∧ (∀ r c, entry (term_topic_count s'.1) r c
              = (entry (term_topic_count s.1) r c
                 - ind (r = token_row s.1 w ∧ c = k_old)
                 + ind (r = token_row s.1 w ∧ c = k_new))%Z).
Proof.
  intros Hwf Hrs.
  apply resample_one_inv in Hrs as (st1 & ws & Hrm & Hws & Hne & _ & Hadd).
  pose proof (wf_remove_word _ _ _ _ _ Hwf Hrm) as Hwf1.
  pose proof (resample_one_draw_lt d w s _ _ Hwf1 Hws Hne) as Hlt.
  pose proof (remove_word_frame _ _ _ _ _ Hrm)
    as (Htok & _ & HK & _ & Hdt & _).
  destruct (remove_word_entries _ _ _ _ _ Hwf Hrm) as (k_old & Hk & He1 & He2).
  apply add_back_entries in Hadd as (topics & Ht & Hdt2 & Ha1 & Ha2).
  unfold current_topic in Hk. rewrite Hdt in Ht, Hdt2.
  rewrite (ix_lookup _ _ _ Ht) in Hk. simpl in Hk.
  destruct (topics !! i) as [k0|] eqn:Hi; [|discriminate].
  injection Hk as ->.
  exists topics, k_old, (multinomial_hot (normalize ws) s.2).1.
  split; [done|]. split; [done|]. split; [by rewrite <- HK|].
  split; [done|]. split; intros r c.
  - by rewrite Ha1, He1.
  - rewrite Ha2, He2. unfold token_row. by rewrite Htok.
Qed.

Lemma resample_tally d i doc w s s' :
  wf s.1 → tally_inv s.1 →
  text s.1 !! d = Some doc → doc !! i = Some w →
  resample_one d i w s = Ok s' → tally_inv s'.1.
Proof.
  intros Hwf [Hdoc Hterm] Hd Hi Hrs.
  pose proof (resample_one_frame _ _ _ _ _ Hrs) as (Htok & _ & HK & Htxt & _).
  destruct (resample_one_effect _ _ _ _ _ Hwf Hrs)
    as (topics & k_old & k_new & Ht & Hk & _ & Hdt & He1 & He2).
  split.
  - intros d' topics' j Hd' Hj. rewrite HK in Hj. rewrite Hdt in Hd'.
    rewrite He1. destruct (decide (d' = d)) as [->|Hne].
    + rewrite list_lookup_insert_eq in Hd' by by eapply lookup_lt_Some.
      injection Hd' as <-. rewrite (Hdoc d topics j Ht Hj).
      unfold doc_tally. rewrite (length_filter_insert _ _ _ _ _ Hk).
      ind_cases.
    + rewrite list_lookup_insert_ne in Hd' by done.
      rewrite (Hdoc d' topics' j Hd' Hj).
      ind_cases.
  - intros r w' j Hr Hj. rewrite HK in Hj. rewrite Htok in Hr.
    rewrite He2, (Hterm r w' j Hr Hj), Htxt, Hdt.
    unfold term_tally.
    rewrite (zip_insert_l _ _ _ _ _ Hd), list_fmap_insert.
    erewrite sumZ_insert; last first.
    { rewrite list_lookup_fmap.
      rewrite (proj2 (lookup_zip_with_Some pair _ _ d (topics, doc))
                 (ex_intro _ topics (ex_intro _ doc
                    (conj eq_refl (conj Ht Hd))))).
      reflexivity. }
    unfold word_tally. simpl.
    rewrite (zip_insert_l _ _ _ _ _ Hi).
    rewrite (length_filter_insert _ (zip topics doc) i (k_old, w)); last first.
    { apply lookup_zip_with_Some. eauto. }
    destruct (wf_position _ _ _ _ _ Hwf Hd Hi)
      as (_ & _ & r0 & _ & _ & Hr0 & _).
    pose proof (get_loc_eq_iff _ _ _ _ _ (wf_tokens_nodup _ Hwf) Hr Hr0)
      as Hiff.
    unfold token_row. rewrite Hr0. simpl.
    ind_cases.
Qed.

Lemma reachable_tally st : reachable st → tally_inv st.
Proof.
  induction 1 as [txt k g st g' Hinit
                 |st g d i w doc st' g' Hreach IH Hd Hi Hrs
                 |st st' _ IH Hp].
  - by eapply init_tally.
  - eapply (resample_tally d i doc w (st, g) (st', g'));
      eauto using reachable_wf.
  - by apply perplexity_inv in Hp as [p ->].
Qed.

End Moves.

Lemma sumZ_nonneg (l : list Z) : Forall (λ y, (0 ≤ y)%Z) l → (0 ≤ sumZ l)%Z.
Proof. induction 1; simpl; lia. Qed.


Section Counts.
Context {F G : Type} {FO : Float F} {RS : RandomState F G}.
Implicit Types st : Gibbs F.
Implicit Types s : Gibbs F * G.

Lemma term_tally_nonneg txt dt w k : (0 ≤ term_tally txt dt w k)%Z.
Proof.
  unfold term_tally. apply sumZ_nonneg, Forall_fmap, Forall_forall.
  intros p _. unfold word_tally. simpl. lia.
Qed.

Lemma tally_entries_nonneg st :
  wf st → tally_inv st →
  ∀ r c, (0 ≤ entry (doc_topic_counts st) r c)%Z
         ∧ (0 ≤ entry (term_topic_count st) r c)%Z.
Proof.
  intros Hwf [Hdoc Hterm] r c.
  pose proof (wf_doc_topic_counts _ Hwf) as Hd.
  pose proof (wf_term_topic_count _ Hwf) as Ht.
  pose proof (Forall2_length _ _ _ (wf_doc_topic _ Hwf)) as Hlen.
  destruct (decide (c < Z.to_nat (K st))) as [Hc|Hc]; last first.
  { rewrite (entry_out_of_shape _ _ _ r c Hd) by lia.
    rewrite (entry_out_of_shape _ _ _ r c Ht) by lia. lia. }
  split.
  - destruct (decide (r < length (text st))) as [Hr|Hr]; last first.
    { rewrite (entry_out_of_shape _ _ _ r c Hd) by lia. lia. }
    destruct (lookup_lt_is_Some_2 (doc_topic st) r) as [topics Htop]; [lia|].
    rewrite (Hdoc r topics c Htop Hc). unfold doc_tally. lia.
  - destruct (decide (r < length (tokens st))) as [Hr|Hr]; last first.
    { rewrite (entry_out_of_shape _ _ _ r c Ht) by lia. lia. }
    destruct (lookup_lt_is_Some_2 (tokens st) r) as [w Hw]; [lia|].
    rewrite (Hterm r w c Hw Hc). apply term_tally_nonneg.
Qed.

(** X1.  In a reachable state entry [[d, k]] of [doc_topic_counts] is the
    number of words of document [d] whose current topic is [k], and entry
    [[w, k]] of [term_topic_count] is the number of occurrences of [w] in
    the corpus whose current topic is [k]. *)
Theorem counts_are_tallies st :
  reachable st →
  (∀ d topics k, doc_topic st !! d = Some topics → k < Z.to_nat (K st) →
     entry (doc_topic_counts st) d k = doc_tally topics k)
  ∧ (∀ r w k, tokens st !! r = Some w → k < Z.to_nat (K st) →
       entry (term_topic_count st) r k
       = term_tally (text st) (doc_topic st) w k).
Proof. intros Hreach. exact (reachable_tally st Hreach). Qed.

(** X2.  No entry of either table is negative in a reachable state, nor in
    the state between the remove half and the add-back half of a resample
    of one of its occurrences. *)
Theorem counts_never_negative st :
  reachable st →
  (∀ r c, (0 ≤ entry (doc_topic_counts st) r c)%Z
          ∧ (0 ≤ entry (term_topic_count st) r c)%Z)
  ∧ ∀ d i doc w st1,
      text st !! d = Some doc → doc !! i = Some w →
      remove_word d i w st = Ok st1 →
      ∀ r c, (0 ≤ entry (doc_topic_counts st1) r c)%Z
             ∧ (0 ≤ entry (term_topic_count st1) r c)%Z.
Proof.
  intros Hreach. pose proof (reachable_wf _ Hreach) as Hwf.
  pose proof (reachable_tally _ Hreach) as Htally.
  pose proof (tally_entries_nonneg _ Hwf Htally) as Hnn.
  split; [done|]. intros d i doc w st1 Hd Hi Hrm r c.
  destruct (remove_word_entries _ _ _ _ _ Hwf Hrm) as (k & Hk & He1 & He2).
  destruct (wf_position _ _ _ _ _ Hwf Hd Hi)
    as (topics & k' & r0 & Ht & Hk' & Hr0 & _ & Hlt & _).
  unfold current_topic in Hk. rewrite (ix_lookup _ _ _ Ht) in Hk.
  simpl in Hk. rewrite Hk' in Hk. injection Hk as <-.
  destruct Htally as [Hdoc Hterm]. destruct (Hnn r c) as [Hn1 Hn2].
  rewrite He1, He2. unfold ind. split.
  - case_decide as Hcase; [|lia]. destruct Hcase as [-> ->].
    rewrite (Hdoc d topics k' Ht Hlt). unfold doc_tally.
    pose proof (length_filter_pos (λ x, x = k') topics i k' Hk' eq_refl).
    lia.
  - case_decide as Hcase; [|lia]. destruct Hcase as [-> ->].
    unfold token_row. rewrite Hr0.
    rewrite (Hterm r0 w k' (get_loc_lookup _ _ _ Hr0) Hlt).
    assert (1 ≤ word_tally w k' (topics, doc))%Z as Hone.
    { unfold word_tally. simpl.
      apply (length_filter_pos _ (zip topics doc) i (k', w)); [|done].
      apply lookup_zip_with_Some. eauto. }
    assert (word_tally w k' (topics, doc)
            ≤ term_tally (text st) (doc_topic st) w k')%Z; [|lia].
    unfold term_tally. apply (sumZ_lookup_le _ d).
    + apply Forall_fmap, Forall_forall. intros p _. unfold word_tally.
      simpl. lia.
    + rewrite list_lookup_fmap.
      rewrite (proj2 (lookup_zip_with_Some pair _ _ d (topics, doc))
                 (ex_intro _ topics (ex_intro _ doc
                    (conj eq_refl (conj Ht Hd))))).
      reflexivity.
Qed.


(** X4.  In a reachable state the assignment store has one topic per word
    occurrence, document by document, each in [[0, K)], and [K >= 1]. *)
Theorem assignments_in_range st :
  reachable st →
  (0 < K st)%Z
  ∧ length (doc_topic st) = length (text st)
  ∧ ∀ d doc, text st !! d = Some doc →
      ∃ topics, doc_topic st !! d = Some topics
        ∧ length topics = length doc
        ∧ ∀ i k, topics !! i = Some k → (Z.of_nat k < K st)%Z.
Proof.
  intros Hreach. pose proof (reachable_wf _ Hreach) as Hwf.
  pose proof (wf_doc_topic _ Hwf) as Hdt.
  split; [apply (wf_K _ Hwf)|]. split.
  { symmetry. by eapply Forall2_length. }
  intros d doc Hd.
  destruct (Forall2_lookup_l _ _ _ _ _ Hdt Hd) as (topics & Ht & Hlen & Hr).
  exists topics. repeat split; try done.
  intros i k Hk. by apply (Forall_lookup_1 _ _ _ _ Hr Hk).
Qed.

End Counts.

(** ** Reports and passes of a run *)

Lemma reports_step (m : nat) :
  (S m + 24) / 25
  = (m + 24) / 25 + (if decide (m `mod` 25 = 0) then 1 else 0).
Proof.
  pose proof (Nat.div_mod_eq m 25).
  pose proof (Nat.div_mod_eq (S m + 24) 25).
  pose proof (Nat.div_mod_eq (m + 24) 25).
  pose proof (Nat.mod_upper_bound (S m + 24) 25).
  pose proof (Nat.mod_upper_bound (m + 24) 25).
  pose proof (Nat.mod_upper_bound m 25).
  case_decide; lia.
Qed.

Lemma reports_count (m : nat) :
  length (filter (λ step, step `mod` 25 = 0) (seq 0 m)) = (m + 24) / 25.
Proof.
  induction m as [|m IH]; [reflexivity|].
  rewrite seq_S, filter_app, length_app, IH, reports_step. simpl.
  rewrite filter_cons. case_decide; reflexivity.
Qed.

Section Runs.
Context {F G : Type} {FO : Float F} {RS : RandomState F G}.
Implicit Types st : Gibbs F.
Implicit Types s : Gibbs F * G.

Lemma iterate_step_reports step s s' :
  wf s.1 → iterate_step step s = Ok s' →
  wf s'.1
  ∧ length (perplexity_scores s'.1)
    = length (perplexity_scores s.1)
      + (if decide (step `mod` 25 = 0) then 1 else 0).
Proof.
  intros Hwf Hrun. unfold iterate_step in Hrun.
  apply bind_Ok_inv in Hrun as (s1 & Hs1 & Hrun).
  assert (wf s1.1
          ∧ length (perplexity_scores s1.1)
            = length (perplexity_scores s.1)
              + (if decide (step `mod` 25 = 0) then 1 else 0))
    as [Hwf1 Hlen].
  { unfold report in Hs1. case_decide.
    - apply bind_Ok_inv in Hs1 as (st & Hp & Hs1). injection Hs1 as <-.
      simpl. split; [by eapply wf_perplexity|].
      apply perplexity_inv in Hp as [p ->]. simpl.
      rewrite length_app. simpl. lia.
    - injection Hs1 as <-. split; [done|lia]. }
  apply sweep_frame in Hrun as (Hwf' & _ & Hsc); [|done].
  split; [done|]. by rewrite Hsc.
Qed.

Lemma steps_reports (steps : list nat) s s' :
  wf s.1 → for_each iterate_step steps s = Ok s' →
  length (perplexity_scores s'.1)
  = length (perplexity_scores s.1)
    + length (filter (λ step, step `mod` 25 = 0) steps).
Proof.
  revert s. induction steps as [|step steps IH]; intros s Hwf Hrun;
    simpl in Hrun.
  - injection Hrun as <-. simpl. lia.
  - apply bind_Ok_inv in Hrun as (s1 & Hstep & Hrun).
    apply iterate_step_reports in Hstep as [Hwf1 Hlen]; [|done].
    rewrite (IH _ Hwf1 Hrun), Hlen, filter_cons.
    case_decide; simpl; lia.
Qed.

(** X5.  Started on a reachable state, [iterate n] appends one score for
    each of the rounds 0, 25, 50, ... below [n]: [ceil(n/25)] scores for
    [n >= 0] and none for [n <= 0].  For [n >= 1] the first of them is the
    perplexity of the state the call was given, before any of its
    resamples. *)
Theorem iterate_reports n st g s' :
  reachable st → iterate n (st, g) = Ok s' →
  length (perplexity_scores s'.1)
  = length (perplexity_scores st) + (Z.to_nat n + 24) / 25
  ∧ ((1 ≤ n)%Z →
     perplexity_scores s'.1 !! length (perplexity_scores st)
     = Some (perplexity_spec st)).
Proof.
  intros Hreach Hrun. pose proof (reachable_wf _ Hreach) as Hwf. split.
  - unfold iterate, range in Hrun.
    rewrite (steps_reports _ (st, g) s' Hwf Hrun), reports_count. done.
  - intros Hn. unfold iterate, range in Hrun.
    destruct (Z.to_nat n) as [|m] eqn:Hm; [lia|]. simpl in Hrun.
    apply bind_Ok_inv in Hrun as (s1 & Hstep & Hrun).
    unfold iterate_step, report in Hstep. rewrite decide_True in Hstep by done.
    simpl in Hstep. rewrite (perplexity_spec_ok _ Hwf) in Hstep.
    simpl in Hstep.
    apply sweep_frame in Hstep as (Hwf1 & _ & Hsc);
      [|simpl; by destruct Hwf].
    simpl in Hsc.
    assert (perplexity_scores s1.1 `prefix_of` perplexity_scores s'.1)
      as Hpre.
    { apply (for_each_preserves
               (λ t, wf t.1 ∧ perplexity_scores s1.1
                              `prefix_of` perplexity_scores t.1)
               iterate_step (seq 1 m) s1 s'); [|done|exact Hrun].
      intros step t t' _ [Hwft Hp] Hst.
      apply iterate_step_trace in Hst as [Hwft' Hp']; [|done].
      split; [done|by etrans]. }
    eapply prefix_lookup_Some; [|exact Hpre].
    rewrite Hsc. by rewrite lookup_app_r, Nat.sub_diag by lia.
Qed.

(** *** The reports do not steer the sampler *)

Lemma resample_one_erase d i w s :
  resample_one d i w (erase_trace s)
  = let* s' := resample_one d i w s in Ok (erase_trace s').
Proof.
  destruct s as [st g]. unfold resample_one, erase_trace. simpl.
  unfold remove_word. simpl.
  destruct (current_topic st d i) as [k|e] eqn:Hk; simpl.
  2:{ unfold current_topic in *. simpl. by rewrite Hk. }
  unfold current_topic in *. simpl. rewrite Hk. simpl.
  destruct (loc_iadd (doc_topic_counts st) d k (-1)) as [dtc|e]; simpl;
    [|done].
  destruct (term_loc_iadd (tokens st) (term_topic_count st) w k (-1))
    as [ttc|e]; simpl; [|done].
  unfold conditional_weights, word_given_topic, topic_given_doc. simpl.
  destruct (get_loc (tokens st) w) as [r|e]; simpl; [|done].
  destruct (ix ttc r) as [row|e]; simpl; [|done].
  destruct (ix dtc d) as [drow|e]; simpl; [|done].
  destruct (draw_topic _ g) as [[k' g']|e]; simpl; [|done].
  unfold add_back, current_topic. simpl.
  destruct (ix (doc_topic st) d) as [topics|e]; simpl; [|done].
  destruct (topics !! i); simpl; [|done].
  destruct (loc_iadd dtc d k' 1) as [dtc2|e]; simpl; [|done].
  destruct (term_loc_iadd (tokens st) ttc w k' 1) as [ttc2|e]; simpl; done.
Qed.

Lemma for_each_erase {A : Type}
    (body : A → Gibbs F * G → result (Gibbs F * G)) (xs : list A) s :
  (∀ x t, body x (erase_trace t)
          = let* t' := body x t in Ok (erase_trace t')) →
  for_each body xs (erase_trace s)
  = let* s' := for_each body xs s in Ok (erase_trace s').
Proof.
  intros Hbody. revert s. induction xs as [|x xs IH]; intros s; simpl;
    [reflexivity|].
  rewrite Hbody. destruct (body x s) as [s1|e]; simpl; [apply IH|done].
Qed.

Lemma sweep_erase s :
  sweep (erase_trace s) = let* s' := sweep s in Ok (erase_trace s').
Proof.
  unfold sweep. change (text (erase_trace s).1) with (text s.1).
  apply for_each_erase. intros [d doc] t. unfold sweep_doc.
  change (doc_topic (erase_trace t).1) with (doc_topic t.1). cbn [fst snd].
  destruct (ix (doc_topic t.1) d) as [topics|e]; simpl; [|done].
  apply for_each_erase. intros [j w] t'. apply resample_one_erase.
Qed.

Lemma iterate_erase n s s' :
  iterate n s = Ok s' →
  plain_sweeps n (erase_trace s) = Ok (erase_trace s').
Proof.
  unfold iterate, plain_sweeps. generalize (range n). intros steps.
  revert s. induction steps as [|step steps IH]; intros s Hrun;
    simpl in Hrun |- *.
  - by injection Hrun as <-.
  - apply bind_Ok_inv in Hrun as (s1 & Hstep & Hrun).
    unfold iterate_step in Hstep.
    apply bind_Ok_inv in Hstep as (s0 & Hrep & Hsweep).
    assert (erase_trace s0 = erase_trace s) as Heq.
    { unfold report in Hrep. case_decide.
      - apply bind_Ok_inv in Hrep as (st & Hp & Hrep). injection Hrep as <-.
        by apply perplexity_inv in Hp as [p ->].
      - by injection Hrep as <-. }
    rewrite <- Heq, sweep_erase, Hsweep. simpl. by apply IH.
Qed.

(** X6.  The perplexity reports are observational: a run of [iterate n]
    that returns leaves the assignments, both tables and the generator as
    [n] plain passes leave them; only the trace differs. *)
Theorem reports_are_observational n s s' :
  iterate n s = Ok s' →
  plain_sweeps n (erase_trace s) = Ok (erase_trace s').
Proof. apply iterate_erase. Qed.

Lemma for_each_const {A : Type} (f : Gibbs F * G → result (Gibbs F * G))
    (xs ys : list A) s :
  length xs = length ys →
  for_each (λ _, f) xs s = for_each (λ _, f) ys s.
Proof.
  revert ys s. induction xs as [|x xs IH]; intros [|y ys] s Hlen; try done.
  simpl. destruct (f s) as [s1|e]; simpl; [|done]. apply IH.
  by injection Hlen.
Qed.

Lemma plain_sweeps_add n m s :
  (0 ≤ n)%Z → (0 ≤ m)%Z →
  plain_sweeps (n + m) s = bind (plain_sweeps n s) (plain_sweeps m).
Proof.
  intros Hn Hm. unfold plain_sweeps, range.
  rewrite Z2Nat.inj_add, seq_app, for_each_app by done.
  destruct (for_each _ (seq 0 (Z.to_nat n)) s) as [s1|e]; simpl; [|done].
  apply for_each_const. by rewrite !length_seq.
Qed.

Lemma iterate_step_shift a step s :
  a `mod` 25 = 0 → iterate_step (a + step) s = iterate_step step s.
Proof.
  intros Ha. unfold iterate_step, report.
  assert ((a + step) `mod` 25 = step `mod` 25) as ->; [|done].
  pose proof (Nat.div_mod_eq a 25).
  pose proof (Nat.div_mod_eq step 25).
  pose proof (Nat.div_mod_eq (a + step) 25).
  pose proof (Nat.mod_upper_bound step 25).
  pose proof (Nat.mod_upper_bound (a + step) 25).
  lia.
Qed.

Lemma iterate_steps_shift a c b s :
  a `mod` 25 = 0 →
  for_each iterate_step (seq (a + c) b) s
  = for_each iterate_step (seq c b) s.
Proof.
  intros Ha. revert c s. induction b as [|b IH]; intros c s; simpl;
    [done|].
  rewrite (iterate_step_shift a c s Ha).
  destruct (iterate_step c s) as [s1|e]; simpl; [|done].
  rewrite <- Nat.add_succ_r. apply IH.
Qed.

(** X10.  Two calls of [iterate] in a row against one call for the sum of
    the rounds, on a reachable state and for [n, m >= 0]: the two ways
    return, with the same assignments, tables and generator; when [n] is a
    multiple of 25 they are the same computation, trace included.  For
    other [n] the second call reports at its own round 0, so the traces
    differ. *)
Theorem iterate_compose n m st g :
  reachable st → (0 ≤ n)%Z → (0 ≤ m)%Z →
  (∃ s2 s3,
     bind (iterate n (st, g)) (iterate m) = Ok s2
     ∧ iterate (n + m) (st, g) = Ok s3
     ∧ erase_trace s3 = erase_trace s2)
  ∧ ((n `mod` 25 = 0)%Z →
     iterate (n + m) (st, g) = bind (iterate n (st, g)) (iterate m)).
Proof.
  intros Hreach Hn Hm. split.
  - destruct (iterate_ok n (st, g) Hreach) as (s1 & Hs1 & Hreach1).
    destruct (iterate_ok m s1 Hreach1) as (s2 & Hs2 & _).
    destruct (iterate_ok (n + m) (st, g) Hreach) as (s3 & Hs3 & _).
    exists s2, s3. rewrite Hs1. simpl. split; [done|]. split; [done|].
    apply iterate_erase in Hs1, Hs2, Hs3.
    rewrite plain_sweeps_add, Hs1 in Hs3 by done. simpl in Hs3.
    rewrite Hs2 in Hs3. congruence.
  - intros Hmod. unfold iterate, range.
    rewrite Z2Nat.inj_add, seq_app, for_each_app by done.
    destruct (for_each _ (seq 0 (Z.to_nat n)) (st, g)) as [s1|e]; simpl;
      [|done].
    rewrite <- (Nat.add_0_r (Z.to_nat n)) at 1.
    apply iterate_steps_shift.
    pose proof (Z2Nat.inj_mod n 25 Hn ltac:(lia)) as Hz.
    rewrite Hmod in Hz. change (Z.to_nat 25) with 25 in Hz. by rewrite <- Hz.
Qed.

Lemma sweep_setup s s' :
  sweep s = Ok s' →
  tokens s'.1 = tokens s.1 ∧ V s'.1 = V s.1 ∧ K s'.1 = K s.1
  ∧ text s'.1 = text s.1 ∧ alpha s'.1 = alpha s.1 ∧ beta s'.1 = beta s.1.
Proof.
  unfold sweep. generalize (enumerate (text s.1)). intros ds Hrun.
  apply (for_each_preserves
           (λ t, tokens t.1 = tokens s.1 ∧ V t.1 = V s.1 ∧ K t.1 = K s.1
                 ∧ text t.1 = text s.1 ∧ alpha t.1 = alpha s.1
                 ∧ beta t.1 = beta s.1)
           sweep_doc ds s s'); [|done|exact Hrun].
  intros [d doc] t t' _ Ht Hdoc. unfold sweep_doc in Hdoc.
  apply bind_Ok_inv in Hdoc as (_ & _ & Hdoc).
  apply (for_each_preserves
           (λ u, tokens u.1 = tokens s.1 ∧ V u.1 = V s.1 ∧ K u.1 = K s.1
                 ∧ text u.1 = text s.1 ∧ alpha u.1 = alpha s.1
                 ∧ beta u.1 = beta s.1)
           (λ '(word_ind, word), resample_one d word_ind word)
           (enumerate doc) t t'); [|done|exact Hdoc].
  intros [j w] u u' _ (?&?&?&?&?&?) Hrs.
  apply resample_one_frame in Hrs as (?&?&?&?&?&?&_).
  repeat split; congruence.
Qed.

(** X7.  A call of [iterate] that returns has changed neither the corpus,
    nor the vocabulary and its size, nor [K], nor the priors [alpha] and
    [beta]. *)
Theorem iterate_keeps_setup n s s' :
  iterate n s = Ok s' →
  tokens s'.1 = tokens s.1 ∧ V s'.1 = V s.1 ∧ K s'.1 = K s.1
  ∧ text s'.1 = text s.1 ∧ alpha s'.1 = alpha s.1 ∧ beta s'.1 = beta s.1.
Proof.
  unfold iterate. intros Hrun.
  apply (for_each_preserves
           (λ t, tokens t.1 = tokens s.1 ∧ V t.1 = V s.1 ∧ K t.1 = K s.1
                 ∧ text t.1 = text s.1 ∧ alpha t.1 = alpha s.1
                 ∧ beta t.1 = beta s.1)
           iterate_step (range n) s s'); [|done|exact Hrun].
  intros step t t' _ (?&?&?&?&?&?) Hstep. unfold iterate_step in Hstep.
  apply bind_Ok_inv in Hstep as (t0 & Hrep & Hsweep).
  apply sweep_setup in Hsweep as (?&?&?&?&?&?).
  assert (tokens t0.1 = tokens t.1 ∧ V t0.1 = V t.1 ∧ K t0.1 = K t.1
          ∧ text t0.1 = text t.1 ∧ alpha t0.1 = alpha t.1
          ∧ beta t0.1 = beta t.1) as (?&?&?&?&?&?).
  { unfold report in Hrep. case_decide.
    - apply bind_Ok_inv in Hrep as (st & Hp & Hrep). injection Hrep as <-.
      by apply perplexity_inv in Hp as [p ->].
    - by injection Hrep as <-. }
  repeat split; congruence.
Qed.

End Runs.

(** ** Order of the reported words, vocabulary *)

Lemma StronglySorted_fmap_elem_of {A B : Type} (R1 : relation A)
    (R2 : relation B) (f : A → B) (l : list A) :
  StronglySorted R1 l →
  (∀ x y, x ∈ l → y ∈ l → R1 x y → R2 (f x) (f y)) →
  StronglySorted R2 (f <$> l).
Proof.
  induction 1 as [|x l Hl IH Hx]; intros HR; csimpl; constructor.
  - apply IH. intros y z Hy Hz. apply HR; by right.
  - apply Forall_fmap, Forall_forall. intros y Hy. simpl.
    rewrite Forall_forall in Hx. apply HR; [by left|by right|by apply Hx].
Qed.

Lemma get_loc_Raise (index : list string) (w : string) (e : exn) :
  get_loc index w = Raise e → e = KeyError ∧ w ∉ index.
Proof.
  induction index as [|x index IH]; simpl; intros H.
  - injection H as <-. split; [done|]. apply not_elem_of_nil.
  - case_decide as Hx; [discriminate|].
    destruct (get_loc index w) as [p|e'] eqn:Hp; simpl in H; [discriminate|].
    injection H as <-. destruct (IH eq_refl) as [-> Hnot]. split; [done|].
    rewrite not_elem_of_cons. split; [congruence|done].
Qed.

Section Edges.
Context {F G : Type} {FO : Float F} {RS : RandomState F G}.
Implicit Types st : Gibbs F.

(** X8.  On a reachable state and for a topic in [[0, K)], [top_n_words]
    lists for the topic a prefix of the ranking of the whole vocabulary
    (what it lists for [n = V]), which holds every word once in
    non-increasing order of [term_topic_count] for the topic: its first [n]
    words for [n >= 0] (all of them when [n >= V], none for [n = 0]), and
    all but its last [-n] words for [n < 0] ([V + n] words, none when
    [n <= -V]). *)
Theorem top_n_order st topic n :
  reachable st → topic < Z.to_nat (K st) →
  ∃ ws full,
    top_n st topic n = Ok ws
    ∧ top_n st topic (V st) = Ok full
    ∧ full ≡ₚ tokens st
    ∧ StronglySorted (count_ge st topic) full
    ∧ ((0 ≤ n)%Z → ws = take (Z.to_nat n) full)
    ∧ ((n < 0)%Z → ws = take (length full - Z.to_nat (- n)) full)
    ∧ StronglySorted (count_ge st topic) ws
    ∧ ((V st ≤ n)%Z → ws ≡ₚ tokens st)
    ∧ (n = 0%Z → ws = [])
    ∧ ((n < 0)%Z → length ws = Z.to_nat (V st + n)).
Proof.
  intros Hreach Ht. pose proof (reachable_wf _ Hreach) as Hwf.
  exists ((head_n n (ranked st topic)).*2), ((ranked st topic).*2).
  split; [by apply top_n_ok|].
  pose proof (ranked_words st topic Hwf) as Hperm.
  pose proof (sort_desc_sorted
                (zip ((λ row, nth topic row 0%Z) <$> term_topic_count st)
                     (tokens st))) as Hsorted.
  fold (ranked st topic) in Hsorted.
  assert (length (ranked st topic) = Z.to_nat (V st)) as Hlen.
  { rewrite <- (length_fmap snd), Hperm, (wf_V _ Hwf). lia. }
  assert (0 ≤ V st)%Z as HV by (rewrite (wf_V _ Hwf); lia).
  assert (∀ m, StronglySorted (count_ge st topic)
                 (take m (ranked st topic)).*2) as Htake.
  { intros m. rewrite <- (take_drop m (ranked st topic)) in Hsorted.
    apply StronglySorted_app_1_l in Hsorted.
    apply (StronglySorted_fmap_elem_of key_ge); [done|].
    intros [c w] [c' w'] Hin Hin' Hge. apply subseteq_take in Hin, Hin'.
    apply (ranked_elem_of st topic) in Hin as [_ ->]; [|done].
    apply (ranked_elem_of st topic) in Hin' as [_ ->]; [|done].
    exact Hge. }
  split; [|split; [|split; [|split; [|split; [|split; [|split; [|split]]]]]]].
  - rewrite (top_n_ok _ _ _ Hwf Ht). unfold head_n.
    rewrite decide_True by done. by rewrite take_ge by lia.
  - done.
  - specialize (Htake (length (ranked st topic))).
    by rewrite take_ge in Htake by lia.
  - intros Hn. unfold head_n. rewrite decide_True by done.
    apply fmap_take.
  - intros Hn. unfold head_n. rewrite decide_False by lia.
    by rewrite fmap_take, length_fmap.
  - assert (∃ m, head_n n (ranked st topic) = take m (ranked st topic))
      as [m ->] by (unfold head_n; case_decide; eauto).
    apply Htake.
  - intros Hn. unfold head_n. rewrite decide_True by lia.
    rewrite take_ge by lia. done.
  - intros ->. reflexivity.
  - intros Hn. unfold head_n. rewrite decide_False by lia.
    rewrite length_fmap, length_take. lia.
Qed.

(** X9.  The vocabulary that [__init__] builds has no duplicate, holds
    exactly the words that occur in the corpus, and [V] is its length; the
    label lookup used by [.loc] and [.ix] on [term_topic_count] is the
    inverse of indexing it, and raises [KeyError] exactly on the words that
    are not in it. *)
Theorem vocabulary_of_corpus txt k (g : G) st g' :
  __init__ txt k g = Ok (st, g') →
  NoDup (tokens st)
  ∧ V st = Z.of_nat (length (tokens st))
  ∧ (∀ w, w ∈ tokens st ↔ ∃ doc, doc ∈ txt ∧ w ∈ doc)
  ∧ (∀ r w, get_loc (tokens st) w = Ok r ↔ tokens st !! r = Some w)
  ∧ (∀ w, get_loc (tokens st) w = Raise KeyError ↔ w ∉ tokens st).
Proof.
  intros Hinit.
  pose proof (init_frame _ _ _ _ _ Hinit) as (_ & _ & Htok & HV & _).
  assert (NoDup (tokens st)) as Hnd
    by (rewrite Htok; apply NoDup_remove_dups).
  split; [done|]. split; [by rewrite HV, Htok|]. split; [|split].
  - intros w. rewrite Htok, elem_of_remove_dups. apply elem_of_concat.
  - intros r w. split; [apply get_loc_lookup|by apply get_loc_NoDup].
  - intros w. split.
    + intros Hraise. by apply get_loc_Raise in Hraise as [_ ?].
    + intros Hnot. destruct (get_loc (tokens st) w) as [p|e] eqn:Hp.
      * exfalso. apply Hnot. apply get_loc_lookup in Hp.
        by eapply list_elem_of_lookup_2.
      * by apply get_loc_Raise in Hp as [-> _].
Qed.

End Edges.

(** ** The further properties on the two-document corpus *)

Lemma counts_are_tallies_witness :
  entry (doc_topic_counts state_A) 1 1 = doc_tally [1; 1] 1
  ∧ entry (term_topic_count state_A) 1 1
    = term_tally corpus_A (doc_topic state_A) "b" 1.
Proof.
  destruct (counts_are_tallies (G:=list nat) state_A) as [Hdoc Hterm].
  - apply (reach_init corpus_A 2 tape_A state_A [1; 0; 0; 0]).
    vm_compute. reflexivity.
  - split.
    + apply (Hdoc 1 [1; 1] 1); [reflexivity|vm_compute; lia].
    + apply (Hterm 1 "b" 1); [reflexivity|vm_compute; lia].
Defined.

Lemma counts_never_negative_witness :
  (0 ≤ entry (doc_topic_counts state_A) 1 0)%Z
  ∧ ∃ st1, remove_word 0 0 "a" state_A = Ok st1
      ∧ (0 ≤ entry (term_topic_count st1) 0 0)%Z.
Proof.
  destruct (counts_never_negative (G:=list nat) state_A) as [Hnn Hmid].
  - apply (reach_init corpus_A 2 tape_A state_A [1; 0; 0; 0]).
    vm_compute. reflexivity.
  - split; [apply (Hnn 1 0)|].
    assert (∃ st1, remove_word 0 0 "a" state_A = Ok st1) as [st1 Hrm]
      by (vm_compute; eauto).
    exists st1. split; [exact Hrm|].
    apply (Hmid 0 0 ["a"; "b"] "a" st1 eq_refl eq_refl Hrm 0 0).
Defined.


Lemma assignments_in_range_witness :
  length (doc_topic state_A) = 2
  ∧ ∃ topics, doc_topic state_A !! 1 = Some topics ∧ length topics = 2.
Proof.
  destruct (assignments_in_range (G:=list nat) state_A) as (_ & Hlen & Hdoc).
  - apply (reach_init corpus_A 2 tape_A state_A [1; 0; 0; 0]).
    vm_compute. reflexivity.
  - split; [exact Hlen|].
    destruct (Hdoc 1 ["b"; "c"] eq_refl) as (topics & Ht & Hl & _).
    exists topics. split; [exact Ht|exact Hl].
Defined.

Lemma iterate_reports_witness :
  ∃ s', iterate 26 (state_A, []) = Ok s'
    ∧ length (perplexity_scores s'.1) = 2
    ∧ perplexity_scores s'.1 !! 0 = Some (perplexity_spec state_A).
Proof.
  assert (reachable (G:=list nat) state_A) as Hreach.
  { apply (reach_init corpus_A 2 tape_A state_A [1; 0; 0; 0]).
    vm_compute. reflexivity. }
  destruct (iterate_ok 26 (state_A, []) Hreach) as (s' & Hrun & _).
  destruct (iterate_reports 26 state_A [] s' Hreach Hrun) as [Hlen Hfirst].
  exists s'. split; [exact Hrun|]. split; [exact Hlen|].
  apply Hfirst. lia.
Defined.

Lemma reports_are_observational_witness :
  ∃ s', iterate 1 (state_A, [1; 0; 0; 0]) = Ok s'
    ∧ plain_sweeps 1 (erase_trace (state_A, [1; 0; 0; 0]))
      = Ok (erase_trace s').
Proof.
  assert (∃ s', iterate 1 (state_A, [1; 0; 0; 0]) = Ok s') as [s' Hrun]
    by (vm_compute; eauto).
  exists s'. split; [exact Hrun|].
  apply (reports_are_observational 1 (state_A, [1; 0; 0; 0]) s' Hrun).
Defined.

Lemma iterate_keeps_setup_witness :
  ∃ s', iterate 1 (state_A, [1; 0; 0; 0]) = Ok s'
    ∧ text s'.1 = corpus_A ∧ K s'.1 = 2%Z.
Proof.
  assert (∃ s', iterate 1 (state_A, [1; 0; 0; 0]) = Ok s') as [s' Hrun]
    by (vm_compute; eauto).
  destruct (iterate_keeps_setup 1 (state_A, [1; 0; 0; 0]) s' Hrun)
    as (_ & _ & HK & Htxt & _).
  exists s'. split; [exact Hrun|]. split; [exact Htxt|exact HK].
Defined.

Lemma top_n_order_witness :
  ∃ ws full, top_n state_A 1 (-1) = Ok ws
    ∧ top_n state_A 1 3 = Ok full
    ∧ StronglySorted (count_ge state_A 1) full
    ∧ ws = take 2 full.
Proof.
  destruct (top_n_order (G:=list nat) state_A 1 (-1))
    as (ws & full & Htop & Hfull & Hperm & Hsorted & _ & Hneg & _).
  - apply (reach_init corpus_A 2 tape_A state_A [1; 0; 0; 0]).
    vm_compute. reflexivity.
  - vm_compute. lia.
  - exists ws, full. split; [exact Htop|]. split; [exact Hfull|].
    split; [exact Hsorted|].
    rewrite (Hneg ltac:(lia)). f_equal.
    apply Permutation_length in Hperm. rewrite Hperm. reflexivity.
Defined.

Lemma vocabulary_of_corpus_witness :
  NoDup (tokens state_A)
  ∧ get_loc (tokens state_A) "d" = Raise KeyError.
Proof.
  destruct (vocabulary_of_corpus corpus_A 2 tape_A state_A [1; 0; 0; 0])
    as (Hnd & _ & _ & _ & Hkey).
  - vm_compute. reflexivity.
  - split; [exact Hnd|]. apply Hkey. vm_compute.
    intros Hin. repeat (apply elem_of_cons in Hin as [Hin|Hin];
                        [discriminate Hin|]).
    by apply elem_of_nil in Hin.
Defined.

Lemma iterate_compose_witness :
  (∃ s2 s3,
     bind (iterate 1 (state_A, [1; 0; 0; 0])) (iterate 1) = Ok s2
     ∧ iterate 2 (state_A, [1; 0; 0; 0]) = Ok s3
     ∧ erase_trace s3 = erase_trace s2)
  ∧ iterate (0 + 1) (state_A, [1; 0; 0; 0])
    = bind (iterate 0 (state_A, [1; 0; 0; 0])) (iterate 1).
Proof.
  assert (reachable (G:=list nat) state_A) as Hreach.
  { apply (reach_init corpus_A 2 tape_A state_A [1; 0; 0; 0]).
    vm_compute. reflexivity. }
  split.
  - apply (proj1 (iterate_compose 1 1 state_A [1; 0; 0; 0] Hreach
                    ltac:(lia) ltac:(lia))).
  - apply (proj2 (iterate_compose 0 1 state_A [1; 0; 0; 0] Hreach
                    ltac:(lia) ltac:(lia))).
    reflexivity.
Defined.
